(** * Scenario codec of the Little's Law trainer (utils/codec)

    A shallow embedding of the token codec: the bit stream writer and
    reader, the base64url text transform, and the version-1 scenario
    format ([generateScenarioCode] / [parseScenarioCode]), followed by the
    properties of the format.

    Conventions of the embedding.
    - A JavaScript string is a list of characters ([jsstring]), the code
      units below 256; the bit stream is, as in the source, a string of
      the characters '0' and '1'.
    - A JavaScript [number] is an integer or [NaN].  Fractions, infinities
      and the sign of zero are outside the model.
    - A property that may be missing from an object is an [option]
      ([None] is [undefined]).
    - A [throw] is the [Thrown] case of [result]; the reader's cursor is
      threaded through the [Rd] monad. *)

From Stdlib Require Import String ZArith List Ascii Bool Arith Lia.
Import ListNotations.

(** ** JavaScript strings and numbers *)

Definition jsstring := list ascii.

Definition lit (s : string) : jsstring := list_ascii_of_string s.

Inductive number : Type :=
| NaN
| Int (z : Z).

Definition number_eqb (a b : number) : bool :=
  match a, b with
  | Int x, Int y => Z.eqb x y
  | _, _ => false
  end.

(** [a > b] on numbers; any comparison with [NaN] is false. *)
Definition number_gtb (a b : number) : bool :=
  match a, b with
  | Int x, Int y => Z.ltb y x
  | _, _ => false
  end.

(** [Math.min(a, b)]. *)
Definition Math_min (a b : number) : number :=
  match a, b with
  | Int x, Int y => Int (Z.min x y)
  | _, _ => NaN
  end.

(** [a + b] on numbers. *)
Definition number_add (a b : number) : number :=
  match a, b with
  | Int x, Int y => Int (x + y)
  | _, _ => NaN
  end.

(** The outcome of code that may throw. *)
Inductive result (A : Type) : Type :=
| Value (a : A)
| Thrown (msg : string).

Arguments Value {A} a.
Arguments Thrown {A} msg.

(** *** Characters *)

Definition is_bit (c : ascii) : bool :=
  Ascii.eqb c "0" || Ascii.eqb c "1".

(** The characters matched by [\s] and removed by [trim]: tab, line feed,
    vertical tab, form feed, carriage return, space and no-break space. *)
Definition is_space (c : ascii) : bool :=
  let n := nat_of_ascii c in
  (Nat.eqb n 9 || Nat.eqb n 10 || Nat.eqb n 11 || Nat.eqb n 12
   || Nat.eqb n 13 || Nat.eqb n 32 || Nat.eqb n 160).

(** *** String primitives *)

(** [s.substring(a, b)]: the arguments are swapped when [a > b] and both
    are clamped to the length. *)
Definition substring (a b : nat) (s : jsstring) : jsstring :=
  let lo := Nat.min a b in
  let hi := Nat.max a b in
  firstn (hi - lo) (skipn lo s).

(** [s.slice(-n)]: the last [n] characters; [slice(-0)] is [slice(0)], the
    whole string. *)
Definition slice_last (n : nat) (s : jsstring) : jsstring :=
  match n with
  | O => s
  | _ => skipn (length s - n) s
  end.

Fixpoint drop_spaces (s : jsstring) : jsstring :=
  match s with
  | c :: r => if is_space c then drop_spaces r else s
  | [] => []
  end.

(** [s.trim()]. *)
Definition trim (s : jsstring) : jsstring :=
  rev (drop_spaces (rev (drop_spaces s))).

(** [s.replace(/\s/g, '')]. *)
Definition remove_spaces (s : jsstring) : jsstring :=
  filter (fun c => negb (is_space c)) s.

(** *** [Number.prototype.toString(2)] *)

Fixpoint pos_digits (p : positive) : jsstring :=
  match p with
  | xH => ["1"%char]
  | xO q => pos_digits q ++ ["0"%char]
  | xI q => pos_digits q ++ ["1"%char]
  end.

Definition toString2 (v : number) : jsstring :=
  match v with
  | NaN => lit "NaN"
  | Int Z0 => ["0"%char]
  | Int (Zpos p) => pos_digits p
  | Int (Zneg p) => "-"%char :: pos_digits p
  end.

(** *** [parseInt(s, 2)] *)

Definition bit_value (c : ascii) : Z :=
  if Ascii.eqb c "1" then 1%Z else 0%Z.

(** The value of a string of binary digits, most significant first. *)
Definition bits_value (s : jsstring) : Z :=
  fold_left (fun acc c => (2 * acc + bit_value c)%Z) s 0%Z.

Fixpoint digits_prefix (s : jsstring) : jsstring :=
  match s with
  | c :: r => if is_bit c then c :: digits_prefix r else []
  | [] => []
  end.

(** Leading white space is skipped, a sign is accepted, and the longest
    prefix of binary digits is read; there is no digit: [NaN]. *)
Definition parseInt2 (s : jsstring) : number :=
  let s := drop_spaces s in
  let '(sign, s) :=
    match s with
    | c :: r =>
        if Ascii.eqb c "-" then ((-1)%Z, r)
        else if Ascii.eqb c "+" then (1%Z, r)
        else (1%Z, s)
    | [] => (1%Z, s)
    end in
  match digits_prefix s with
  | [] => NaN
  | ds => Int (sign * bits_value ds)
  end.

(** ** BitStream helpers *)

(** The loop [while (binary.length < width) binary = "0" + binary], run
    for at most [fuel] iterations. *)
Fixpoint pad_zeros (fuel : nat) (binary : jsstring) (width : nat) : jsstring :=
  match fuel with
  | O => binary
  | S f =>
      if length binary <? width
      then pad_zeros f ("0"%char :: binary) width
      else binary
  end.

Module BitWriter.

Record t : Type := mk { bits : jsstring }.

Definition new : t := mk [].

Definition write (value : number) (width : nat) (w : t) : t :=
  let binary := toString2 value in
  let binary :=
    if width <? length binary then slice_last width binary else binary in
  let binary := pad_zeros width binary width in
  mk (bits w ++ binary).

Definition getData (w : t) : jsstring := bits w.

End BitWriter.

Module BitReader.

Record t : Type := mk { bits : jsstring; pointer : nat }.

Definition new (b : jsstring) : t := mk b 0.

Definition read (width : nat) (r : t) : result (number * t) :=
  if length (bits r) <? pointer r + width
  then Thrown "Unexpected end of data"
  else
    let chunk := substring (pointer r) (pointer r + width) (bits r) in
    Value (parseInt2 chunk, mk (bits r) (pointer r + width)).

Definition hasMore (r : t) : bool := pointer r <? length (bits r).

End BitReader.

(** Reading with a cursor: state passing over [BitReader.t], with throws. *)
Definition Rd (A : Type) : Type := BitReader.t -> result (A * BitReader.t).

Definition ret {A} (a : A) : Rd A := fun r => Value (a, r).

Definition bind {A B} (m : Rd A) (k : A -> Rd B) : Rd B :=
  fun r =>
    match m r with
    | Value (a, r') => k a r'
    | Thrown e => Thrown e
    end.

Notation "x <- m ;; k" := (bind m (fun x => k))
  (at level 61, m at next level, right associativity).

(** ** Base64URL transform *)

Definition CHARS : jsstring :=
  lit "ABCDEFGHIJKLMNOPQRSTUVWXYZabcdefghijklmnopqrstuvwxyz0123456789-_".

(** [CHARS[index]]: [undefined] ([None]) outside the string. *)
Definition CHARS_at (index : number) : option ascii :=
  match index with
  | Int z => if (z <? 0)%Z then None else nth_error CHARS (Z.to_nat z)
  | NaN => None
  end.

(** [result += v], where [undefined] is appended as its name. *)
Definition append_value (res : jsstring) (v : option ascii) : jsstring :=
  match v with
  | Some c => res ++ [c]
  | None => res ++ lit "undefined"
  end.

Fixpoint indexOf_from (c : ascii) (s : jsstring) (i : Z) : Z :=
  match s with
  | [] => (-1)%Z
  | x :: r => if Ascii.eqb x c then i else indexOf_from c r (i + 1)%Z
  end.

(** [CHARS.indexOf(char)] for a single character. *)
Definition CHARS_indexOf (c : ascii) : Z := indexOf_from c CHARS 0%Z.

(** The loop [while (binary.length % 6 !== 0) binary += "0"]. *)
Fixpoint pad_to_six (fuel : nat) (binary : jsstring) : jsstring :=
  match fuel with
  | O => binary
  | S f =>
      if Nat.eqb (length binary mod 6) 0
      then binary
      else pad_to_six f (binary ++ ["0"%char])
  end.

(** The loop [for (let i = 0; i < binary.length; i += 6)], from index [i]
    with the result accumulated so far. *)
Fixpoint encode_segments (fuel : nat) (i : nat) (binary res : jsstring)
  : jsstring :=
  match fuel with
  | O => res
  | S f =>
      if i <? length binary
      then
        let segment := substring i (i + 6) binary in
        let index := parseInt2 segment in
        encode_segments f (i + 6) binary (append_value res (CHARS_at index))
      else res
  end.

(** Five iterations pad any length to a multiple of six, and a string of
    [n] characters has at most [n] segments ([pad_to_six_enough],
    [encode_segments_enough]). *)
Definition binaryStringToBase64 (binary : jsstring) : jsstring :=
  let binary := pad_to_six 5 binary in
  encode_segments (length binary) 0 binary [].

Fixpoint decode_chars (base64 : jsstring) (binary : jsstring)
  : result jsstring :=
  match base64 with
  | [] => Value binary
  | char :: rest =>
      let index := CHARS_indexOf char in
      if (index =? -1)%Z then Thrown "Invalid character"
      else
        let segment := toString2 (Int index) in
        let segment := pad_zeros 6 segment 6 in
        decode_chars rest (binary ++ segment)
  end.

Definition base64ToBinaryString (base64 : jsstring) : result jsstring :=
  decode_chars base64 [].

(** ** Scenario logic *)

(** Modelled from the spec: the type [TimeUnit] of [../types], which is
    not part of the sources; "one of {Seconds, Minutes, Hours}". *)
Inductive TimeUnit : Type := Seconds | Minutes | Hours.

(** Modelled from the spec: the constants [MIN_STEPS] and [MAX_STEPS] of
    [../constants], which is not part of the sources; "observed as 2..5
    inclusive" (the format comment of the codec says the same: "Value =
    count - 2. Supports 2..5"). *)
Definition MIN_STEPS : Z := 2.
Definition MAX_STEPS : Z := 5.

(** Modelled from the spec: the type [StepParameters] of [../types], which
    is not part of the sources, with the fields the codec reads.  The two
    batch fields are optional properties: the codec reads them through
    [steps[0]?.batchSize || 10] and [steps[0]?.isBatchLocked ? 1 : 0], and
    the step objects of a [ScenarioData] have neither. *)
Module StepParameters.
Record t : Type := mk {
  batchSize : option number;
  isBatchLocked : option bool;
  cycleTime : number;
  setupTime : number;
  isCycleLocked : bool;
  isSetupLocked : bool
}.
End StepParameters.

(** The element type of [ScenarioData.steps]. *)
Module ScenarioStep.
Record t : Type := mk {
  cycleTime : number;
  setupTime : number;
  isSetupLocked : bool;
  isCycleLocked : bool
}.
End ScenarioStep.

(** [timeUnit] is the value of [timeUnits[unitVal]], which is [undefined]
    ([None]) outside the array. *)
Module ScenarioData.
Record t : Type := mk {
  timeUnit : option TimeUnit;
  steps : list ScenarioStep.t;
  globalBatchSize : number;
  globalBatchLocked : bool
}.
End ScenarioData.

Definition unitMap (u : TimeUnit) : Z :=
  match u with
  | Seconds => 0
  | Minutes => 1
  | Hours => 2
  end.

(** [v || d] for a number that may be missing: [undefined], [NaN] and [0]
    are falsy. *)
Definition or_default (v : option number) (d : number) : number :=
  match v with
  | Some (Int z) => if (z =? 0)%Z then d else Int z
  | Some NaN => d
  | None => d
  end.

(** [b ? 1 : 0] for a boolean that may be missing. *)
Definition flag_of (b : option bool) : Z :=
  match b with
  | Some true => 1
  | _ => 0
  end.

(** The body of [steps.forEach(step => ...)]. *)
Definition write_step (writer : BitWriter.t) (step : StepParameters.t)
  : BitWriter.t :=
  let writer :=
    BitWriter.write (Math_min (StepParameters.cycleTime step) (Int 31)) 5 writer in
  let writer :=
    BitWriter.write (Math_min (StepParameters.setupTime step) (Int 127)) 7 writer in
  let writer :=
    BitWriter.write (Int (flag_of (Some (StepParameters.isCycleLocked step)))) 1 writer in
  BitWriter.write (Int (flag_of (Some (StepParameters.isSetupLocked step)))) 1 writer.

Definition generateScenarioCode (steps : list StepParameters.t)
  (timeUnit : TimeUnit) : jsstring :=
  let writer := BitWriter.new in
  (* 1. Version *)
  let writer := BitWriter.write (Int 1) 2 writer in
  (* 2. Time Unit *)
  let writer := BitWriter.write (Int (unitMap timeUnit)) 2 writer in
  (* 3. Step Count (offset by MIN_STEPS) *)
  let count :=
    Z.min (Z.max (Z.of_nat (length steps)) MIN_STEPS) MAX_STEPS in
  let writer := BitWriter.write (Int (count - MIN_STEPS)) 2 writer in
  (* 4. Global Batch Size *)
  let batchSize :=
    or_default
      (match steps with
       | s :: _ => StepParameters.batchSize s
       | [] => None
       end) (Int 10) in
  let writer := BitWriter.write (Math_min batchSize (Int 63)) 6 writer in
  (* 5. Global Batch Lock *)
  let batchLocked :=
    flag_of
      (match steps with
       | s :: _ => StepParameters.isBatchLocked s
       | [] => None
       end) in
  let writer := BitWriter.write (Int batchLocked) 1 writer in
  (* 6. Per Step Data *)
  let writer := fold_left write_step steps writer in
  binaryStringToBase64 (BitWriter.getData writer).

(** [timeUnits[unitVal]] for [timeUnits = ['Seconds', 'Minutes', 'Hours']]. *)
Definition timeUnits_at (unitVal : number) : option TimeUnit :=
  match unitVal with
  | Int z =>
      if (z <? 0)%Z then None
      else nth_error [Seconds; Minutes; Hours] (Z.to_nat z)
  | NaN => None
  end.

(** The number of iterations of [for (let i = 0; i < n; i++)] for an
    integer or [NaN] bound. *)
Definition loop_count (n : number) : nat :=
  match n with
  | Int z => Z.to_nat z
  | NaN => 0
  end.

(** The loop over the steps, with [n] iterations left. *)
Fixpoint read_steps (n : nat) (stepsData : list ScenarioStep.t)
  : Rd (list ScenarioStep.t) :=
  match n with
  | O => ret stepsData
  | S k =>
      cycleTime <- BitReader.read 5 ;;
      setupTime <- BitReader.read 7 ;;
      cycleLock <- BitReader.read 1 ;;
      setupLock <- BitReader.read 1 ;;
      read_steps k
        (stepsData ++
           [ScenarioStep.mk cycleTime setupTime
              (number_eqb setupLock (Int 1))
              (number_eqb cycleLock (Int 1))])
  end.

(** The reads of [parseScenarioCode]; [None] is [return null]. *)
Definition read_scenario : Rd (option ScenarioData.t) :=
  version <- BitReader.read 2 ;;
  if negb (number_eqb version (Int 1)) then ret None
  else
    unitVal <- BitReader.read 2 ;;
    if number_gtb unitVal (Int 2) then ret None
    else
      let timeUnit := timeUnits_at unitVal in
      countOffset <- BitReader.read 2 ;;
      let stepCount := number_add countOffset (Int MIN_STEPS) in
      globalBatchSize <- BitReader.read 6 ;;
      batchLock <- BitReader.read 1 ;;
      stepsData <- read_steps (loop_count stepCount) [] ;;
      ret (Some (ScenarioData.mk timeUnit stepsData globalBatchSize
                   (number_eqb batchLock (Int 1)))).

(** The body of the [try] block of [parseScenarioCode]. *)
Definition parse_try (code : jsstring) : result (option ScenarioData.t) :=
  let cleanCode := remove_spaces (trim code) in
  match cleanCode with
  | [] => Value None
  | _ =>
      match base64ToBinaryString cleanCode with
      | Thrown e => Thrown e
      | Value binary =>
          match read_scenario (BitReader.new binary) with
          | Thrown e => Thrown e
          | Value (data, _) => Value data
          end
      end
  end.

(** [catch (e) { return null; }] around the body. *)
Definition parseScenarioCode (code : jsstring) : option ScenarioData.t :=
  match parse_try code with
  | Value data => data
  | Thrown _ => None
  end.

(** ** Definitions used to state the properties *)

(** Strings of bits. *)
Definition all_bits (s : jsstring) : bool := forallb is_bit s.

(** The [w] lowest bits of [v], most significant first. *)
Fixpoint low_bits (w : nat) (v : Z) : jsstring :=
  match w with
  | O => []
  | S k => low_bits k (v / 2) ++ [if Z.odd v then "1"%char else "0"%char]
  end.

(** What one [write] appends, for a non-negative integer. *)
Definition written (value : Z) (width : nat) : jsstring :=
  let binary := toString2 (Int value) in
  let binary :=
    if width <? length binary then slice_last width binary else binary in
  pad_zeros width binary width.

(** The transform as the format describes it: the zero bits that pad the
    sequence to a multiple of six, the consecutive groups of six bits, and
    the alphabet character of each group. *)
Definition zero_padding (b : jsstring) : jsstring :=
  repeat "0"%char ((6 - length b mod 6) mod 6).

Fixpoint groups_of_six (n : nat) (b : jsstring) : list jsstring :=
  match n with
  | O => []
  | S k => firstn 6 b :: groups_of_six k (skipn 6 b)
  end.

Definition symbol_of (group : jsstring) : ascii :=
  nth (Z.to_nat (bits_value group)) CHARS "A"%char.

Definition spec_binaryStringToBase64 (b : jsstring) : jsstring :=
  let padded := b ++ zero_padding b in
  map symbol_of (groups_of_six (length padded / 6) padded).

(** A group of the stream: six bits. *)
Definition is_group (g : jsstring) : Prop :=
  all_bits g = true /\ length g = 6.

(** The reader's view of its stream: the bits from the cursor on, and the
    reader after [w] more bits. *)
Definition remaining (r : BitReader.t) : jsstring :=
  skipn (BitReader.pointer r) (BitReader.bits r).

Definition advance (w : nat) (r : BitReader.t) : BitReader.t :=
  BitReader.mk (BitReader.bits r) (BitReader.pointer r + w).

(** Well-formed input of the encoder: the times are non-negative
    integers, and so is the batch size of the first step when it has one. *)
Definition nonneg (n : number) : bool :=
  match n with
  | Int z => (0 <=? z)%Z
  | NaN => false
  end.

Definition step_ok (s : StepParameters.t) : bool :=
  nonneg (StepParameters.cycleTime s) && nonneg (StepParameters.setupTime s).

Definition batch_ok (s : StepParameters.t) : bool :=
  match StepParameters.batchSize s with
  | Some (Int z) => (0 <=? z)%Z
  | _ => true
  end.

Definition steps_ok (steps : list StepParameters.t) : bool :=
  forallb step_ok steps
  && match steps with
     | s :: _ => batch_ok s
     | [] => true
     end.

(** What the encoder stores for the global batch fields. *)
Definition global_batch (steps : list StepParameters.t) : number :=
  Math_min
    (or_default
       (match steps with
        | s :: _ => StepParameters.batchSize s
        | [] => None
        end) (Int 10))
    (Int 63).

Definition global_lock (steps : list StepParameters.t) : Z :=
  flag_of
    (match steps with
     | s :: _ => StepParameters.isBatchLocked s
     | [] => None
     end).

Definition int_of (n : number) : Z :=
  match n with
  | Int z => z
  | NaN => 0
  end.

(** The 14 bits of a step and the 13 bits of the header. *)
Definition step_bits (s : StepParameters.t) : jsstring :=
  low_bits 5 (int_of (Math_min (StepParameters.cycleTime s) (Int 31)))
  ++ low_bits 7 (int_of (Math_min (StepParameters.setupTime s) (Int 127)))
  ++ low_bits 1 (flag_of (Some (StepParameters.isCycleLocked s)))
  ++ low_bits 1 (flag_of (Some (StepParameters.isSetupLocked s))).

Definition clamped_count (steps : list StepParameters.t) : Z :=
  Z.min (Z.max (Z.of_nat (length steps)) MIN_STEPS) MAX_STEPS.

Definition header_bits (steps : list StepParameters.t) (timeUnit : TimeUnit)
  : jsstring :=
  low_bits 2 1
  ++ low_bits 2 (unitMap timeUnit)
  ++ low_bits 2 (clamped_count steps - MIN_STEPS)
  ++ low_bits 6 (int_of (global_batch steps))
  ++ low_bits 1 (global_lock steps).

Definition scenario_bits (steps : list StepParameters.t) (timeUnit : TimeUnit)
  : jsstring :=
  header_bits steps timeUnit ++ concat (map step_bits steps).

(** What the decoder returns for a step that was encoded, and for a list
    of steps. *)
Definition decoded_step (s : StepParameters.t) : ScenarioStep.t :=
  ScenarioStep.mk
    (Math_min (StepParameters.cycleTime s) (Int 31))
    (Math_min (StepParameters.setupTime s) (Int 127))
    (StepParameters.isSetupLocked s)
    (StepParameters.isCycleLocked s).

Definition decoded (steps : list StepParameters.t) (timeUnit : TimeUnit)
  : ScenarioData.t :=
  ScenarioData.mk (Some timeUnit)
    (map decoded_step (firstn (Z.to_nat MAX_STEPS) steps))
    (global_batch steps)
    (Z.eqb (global_lock steps) 1).

Definition no_spaces (s : jsstring) : bool :=
  forallb (fun c => negb (is_space c)) s.

(** A complete result of the decoder: a time unit, between [MIN_STEPS]
    and [MAX_STEPS] steps, and every number an integer of its field. *)
Definition in_field (n : number) (max : Z) : bool :=
  match n with
  | Int z => (0 <=? z)%Z && (z <=? max)%Z
  | NaN => false
  end.

Definition step_complete (s : ScenarioStep.t) : bool :=
  in_field (ScenarioStep.cycleTime s) 31
  && in_field (ScenarioStep.setupTime s) 127.

Definition complete (d : ScenarioData.t) : bool :=
  match ScenarioData.timeUnit d with
  | Some _ => true
  | None => false
  end
  && (MIN_STEPS <=? Z.of_nat (length (ScenarioData.steps d)))%Z
  && (Z.of_nat (length (ScenarioData.steps d)) <=? MAX_STEPS)%Z
  && forallb step_complete (ScenarioData.steps d)
  && in_field (ScenarioData.globalBatchSize d) 63.

(** The step count that the header of a stream announces: the 2-bit
    field after the version and the time unit, plus [MIN_STEPS]. *)
Definition announced_steps (bits : jsstring) : nat :=
  loop_count
    (number_add (parseInt2 (firstn 2 (skipn 4 bits))) (Int MIN_STEPS)).

(** A configuration within the declared widths: between [MIN_STEPS] and
    [MAX_STEPS] steps, each with a batch size of at most 63, a batch
    lock, a cycle time of at most 31 and a setup time of at most 127. *)
Definition step_in_range (s : StepParameters.t) : bool :=
  match StepParameters.batchSize s with
  | Some b => in_field b 63
  | None => false
  end
  && match StepParameters.isBatchLocked s with
     | Some _ => true
     | None => false
     end
  && in_field (StepParameters.cycleTime s) 31
  && in_field (StepParameters.setupTime s) 127.

Definition configuration_in_range (steps : list StepParameters.t) : bool :=
  forallb step_in_range steps
  && (MIN_STEPS <=? Z.of_nat (length steps))%Z
  && (Z.of_nat (length steps) <=? MAX_STEPS)%Z.

(** The batch size of the first step is at least 1. *)
Definition first_batch_positive (steps : list StepParameters.t) : bool :=
  match steps with
  | s :: _ =>
      match StepParameters.batchSize s with
      | Some (Int b) => (1 <=? b)%Z
      | _ => false
      end
  | [] => false
  end.

(** The fields of a step that the format stores per step. *)
Definition stored_step (s : StepParameters.t) : ScenarioStep.t :=
  ScenarioStep.mk
    (StepParameters.cycleTime s)
    (StepParameters.setupTime s)
    (StepParameters.isSetupLocked s)
    (StepParameters.isCycleLocked s).

(** The round trip preserves a configuration: the time unit, the number
    of steps and the stored fields of every step, and the global batch
    fields are those of the first step. *)
Definition roundtrip_preserves (steps : list StepParameters.t)
  (timeUnit : TimeUnit) (d : ScenarioData.t) : Prop :=
  ScenarioData.timeUnit d = Some timeUnit
  /\ length (ScenarioData.steps d) = length steps
  /\ ScenarioData.steps d = map stored_step steps
  /\ match steps with
     | s :: _ =>
         Some (ScenarioData.globalBatchSize d) = StepParameters.batchSize s
         /\ Some (ScenarioData.globalBatchLocked d)
            = StepParameters.isBatchLocked s
     | [] => True
     end.

Definition decode_encode (steps : list StepParameters.t)
  (timeUnit : TimeUnit) : option ScenarioData.t :=
  parseScenarioCode (generateScenarioCode steps timeUnit).

(** The steps of a decoded scenario passed to the encoder as they are:
    objects without [batchSize] and [isBatchLocked]. *)
Definition steps_as_decoded (d : ScenarioData.t) : list StepParameters.t :=
  map (fun s =>
         StepParameters.mk None None
           (ScenarioStep.cycleTime s) (ScenarioStep.setupTime s)
           (ScenarioStep.isCycleLocked s) (ScenarioStep.isSetupLocked s))
    (ScenarioData.steps d).

(** The steps of a decoded scenario with its global batch fields put on
    every step. *)
Definition steps_with_global_batch (d : ScenarioData.t)
  : list StepParameters.t :=
  map (fun s =>
         StepParameters.mk
           (Some (ScenarioData.globalBatchSize d))
           (Some (ScenarioData.globalBatchLocked d))
           (ScenarioStep.cycleTime s) (ScenarioStep.setupTime s)
           (ScenarioStep.isCycleLocked s) (ScenarioStep.isSetupLocked s))
    (ScenarioData.steps d).

(** Decoding after encoding, applied to its own result, gives that
    result again. *)
Definition reencode_idempotent (steps : list StepParameters.t)
  (timeUnit : TimeUnit) : Prop :=
  exists d u,
    decode_encode steps timeUnit = Some d
    /\ ScenarioData.timeUnit d = Some u
    /\ decode_encode (steps_as_decoded d) u = Some d.

(** The minimum length of a token of [n] steps:
    ceiling((13 + n * 14) / 6). *)
Definition minimum_length (n : nat) : nat := (13 + n * 14 + 5) / 6.

(** Concrete configurations. *)
Definition example_steps : list StepParameters.t :=
  [ StepParameters.mk (Some (Int 10)) (Some false) (Int 5) (Int 10) false true;
    StepParameters.mk (Some (Int 10)) (Some false) (Int 3) (Int 20) true false ].

Definition example_data : ScenarioData.t :=
  ScenarioData.mk (Some Seconds)
    [ ScenarioStep.mk (Int 5) (Int 10) true false;
      ScenarioStep.mk (Int 3) (Int 20) false true ]
    (Int 10) false.

Definition zero_batch_steps : list StepParameters.t :=
  [ StepParameters.mk (Some (Int 0)) (Some false) (Int 5) (Int 10) false true;
    StepParameters.mk (Some (Int 0)) (Some false) (Int 3) (Int 20) true false ].

Definition batch20_steps : list StepParameters.t :=
  [ StepParameters.mk (Some (Int 20)) (Some true) (Int 5) (Int 10) false true;
    StepParameters.mk (Some (Int 20)) (Some true) (Int 3) (Int 20) true false ].

Definition clamped_steps : list StepParameters.t :=
  [ StepParameters.mk (Some (Int 70)) (Some false) (Int 99) (Int 10) false true;
    StepParameters.mk (Some (Int 10)) (Some false) (Int 3) (Int 200) true false ].

Definition one_step : list StepParameters.t :=
  [ StepParameters.mk (Some (Int 10)) (Some false) (Int 5) (Int 10) false true ].

Definition six_steps : list StepParameters.t :=
  map (fun c => StepParameters.mk (Some (Int 10)) (Some false) (Int c) (Int 10)
                  false true)
    [1; 2; 3; 4; 5; 6]%Z.

(** A decoded step as an encoder input with the given batch fields. *)
Definition attach_batch (batchSize : option number) (isBatchLocked : option bool)
  (s : ScenarioStep.t) : StepParameters.t :=
  StepParameters.mk batchSize isBatchLocked
    (ScenarioStep.cycleTime s) (ScenarioStep.setupTime s)
    (ScenarioStep.isCycleLocked s) (ScenarioStep.isSetupLocked s).

(** ** The callers of the codec *)

(** *** SettingsModal *)

(** The effect that generates the code while the modal is open:
    [if (isOpen && steps) setGeneratedCode(generateScenarioCode(steps,
    timeUnit))]; [None] leaves [generatedCode] as it is. *)
Definition generateEffect (isOpen : bool)
  (steps : option (list StepParameters.t)) (timeUnit : TimeUnit)
  : option jsstring :=
  match isOpen, steps with
  | true, Some steps => Some (generateScenarioCode steps timeUnit)
  | _, _ => None
  end.

(** The effect that validates [inputCode]: the values it sets for
    [isValidCode] and [parsedScenario]. *)
Definition validateInput (inputCode : jsstring)
  : bool * option ScenarioData.t :=
  if 0 <? length (trim inputCode)
  then
    let result := parseScenarioCode (trim inputCode) in
    (match result with
     | Some _ => true
     | None => false
     end, result)
  else (false, None).

(** What [loadScenario] does, in order. *)
Inductive modal_action : Type :=
| OnLoadScenario (data : ScenarioData.t)
| OnClose
| SetInputCode (code : jsstring).

(** [loadScenario], for the current [parsedScenario] and the presence of
    the optional [onLoadScenario] property. *)
Definition loadScenario (parsedScenario : option ScenarioData.t)
  (hasOnLoadScenario : bool) : list modal_action :=
  match parsedScenario with
  | Some data =>
      if hasOnLoadScenario
      then [OnLoadScenario data; OnClose; SetInputCode []]
      else []
  | None => []
  end.

(** *** StepControl *)

(** [a < b] on numbers. *)
Definition number_ltb (a b : number) : bool :=
  match a, b with
  | Int x, Int y => Z.ltb x y
  | _, _ => false
  end.

Definition is_digit (c : ascii) : bool :=
  let n := nat_of_ascii c in
  (48 <=? n) && (n <=? 57).

Definition digit_value (c : ascii) : Z :=
  (Z.of_nat (nat_of_ascii c) - 48)%Z.

Definition decimal_value (s : jsstring) : Z :=
  fold_left (fun acc c => (10 * acc + digit_value c)%Z) s 0%Z.

Fixpoint decimal_prefix (s : jsstring) : jsstring :=
  match s with
  | c :: r => if is_digit c then c :: decimal_prefix r else []
  | [] => []
  end.

(** [parseInt(s, 10)]: as [parseInt2], with decimal digits.  The value is
    exact; a JavaScript number rounds integers beyond 2^53. *)
Definition parseInt10 (s : jsstring) : number :=
  let s := drop_spaces s in
  let '(sign, s) :=
    match s with
    | c :: r =>
        if Ascii.eqb c "-" then ((-1)%Z, r)
        else if Ascii.eqb c "+" then (1%Z, r)
        else (1%Z, s)
    | [] => (1%Z, s)
    end in
  match decimal_prefix s with
  | [] => NaN
  | ds => Int (sign * decimal_value ds)
  end.

(** [handleInputChange(param, valStr, min, max)] with [isFloat] false, as
    it is called for the batch size and the setup time: the value handed
    to [onParameterChange].  (With [isFloat] true the value is parsed by
    [parseFloat], which is outside the numbers of this model.) *)
Definition handleInputChange (valStr : jsstring) (min max : Z) : number :=
  match valStr with
  | [] => Int min
  | _ =>
      let val := parseInt10 valStr in
      let val :=
        match val with
        | NaN => Int min
        | Int _ => val
        end in
      let val := if number_gtb val (Int max) then Int max else val in
      let val := if number_ltb val (Int min) then Int min else val in
      val
  end.

(** ** More definitions used to state the properties *)

(** A character of the alphabet. *)
Definition in_alphabet (c : ascii) : bool :=
  negb (CHARS_indexOf c =? -1)%Z.

(** The six bits that the transform decodes a character to. *)
Definition symbol_bits (c : ascii) : jsstring :=
  low_bits 6 (CHARS_indexOf c).

(** A reader over a longer stream, at the same position. *)
Definition extend (more : jsstring) (r : BitReader.t) : BitReader.t :=
  BitReader.mk (BitReader.bits r ++ more) (BitReader.pointer r).

(** A computation of the reader that does not depend on what follows
    the bits it reads. *)
Definition stable {A} (m : Rd A) : Prop :=
  forall more r a r',
    m r = Value (a, r') -> m (extend more r) = Value (a, extend more r').

Definition zero_batch_token : jsstring := lit "QAFFIyk".

Definition zero_batch_data : ScenarioData.t :=
  ScenarioData.mk (Some Seconds)
    [ ScenarioStep.mk (Int 5) (Int 10) true false;
      ScenarioStep.mk (Int 3) (Int 20) false true ]
    (Int 0) false.

(** * Properties *)

(** *** The example of the format: two steps, seconds. *)

Example example_token :
  generateScenarioCode example_steps Seconds = lit "QKFFIyk".
Proof. vm_compute. reflexivity. Qed.

Example example_roundtrip :
  parseScenarioCode (lit "QKFFIyk") = Some example_data.
Proof. vm_compute. reflexivity. Qed.

(** ** Strings of bits *)

Lemma is_bit_inv (c : ascii) :
  is_bit c = true -> c = "0"%char \/ c = "1"%char.
Proof.
  unfold is_bit. rewrite orb_true_iff, !Ascii.eqb_eq. tauto.
Qed.

Lemma is_bit_not_space (c : ascii) : is_bit c = true -> is_space c = false.
Proof.
  intros H. destruct (is_bit_inv c H); subst c; reflexivity.
Qed.

Lemma all_bits_app (a b : jsstring) :
  all_bits (a ++ b) = all_bits a && all_bits b.
Proof. apply forallb_app. Qed.

Lemma all_bits_repeat (n : nat) : all_bits (repeat "0"%char n) = true.
Proof. induction n; simpl; auto. Qed.

Lemma all_bits_firstn (n : nat) (s : jsstring) :
  all_bits s = true -> all_bits (firstn n s) = true.
Proof.
  revert n. induction s as [|c s IH]; intros [|n]; simpl; auto.
  rewrite !andb_true_iff. intros [Hc Hs]. auto.
Qed.

Lemma all_bits_skipn (n : nat) (s : jsstring) :
  all_bits s = true -> all_bits (skipn n s) = true.
Proof.
  revert n. induction s as [|c s IH]; intros [|n]; simpl; auto.
  rewrite !andb_true_iff. intros [Hc Hs]. auto.
Qed.

Lemma bit_value_range (c : ascii) : (0 <= bit_value c <= 1)%Z.
Proof. unfold bit_value. destruct (Ascii.eqb c "1"); lia. Qed.

Lemma fold_bits_acc (s : jsstring) (acc : Z) :
  fold_left (fun a c => (2 * a + bit_value c)%Z) s acc
  = (acc * 2 ^ Z.of_nat (length s) + bits_value s)%Z.
Proof.
  unfold bits_value. revert acc.
  induction s as [|c s IH]; intros acc.
  - simpl. lia.
  - cbn [fold_left length]. rewrite IH, (IH (2 * 0 + bit_value c)%Z).
    rewrite Nat2Z.inj_succ, Z.pow_succ_r by lia. ring.
Qed.

Lemma bits_value_app (a b : jsstring) :
  bits_value (a ++ b)
  = (bits_value a * 2 ^ Z.of_nat (length b) + bits_value b)%Z.
Proof.
  unfold bits_value at 1. rewrite fold_left_app.
  fold (bits_value a). apply fold_bits_acc.
Qed.

Lemma bits_value_snoc (s : jsstring) (c : ascii) :
  bits_value (s ++ [c]) = (2 * bits_value s + bit_value c)%Z.
Proof.
  rewrite bits_value_app. cbn [length].
  change (bits_value [c]) with (2 * 0 + bit_value c)%Z.
  change (2 ^ Z.of_nat 1)%Z with 2%Z. lia.
Qed.

Lemma bits_value_range (s : jsstring) :
  (0 <= bits_value s < 2 ^ Z.of_nat (length s))%Z.
Proof.
  induction s as [|c s IH] using rev_ind.
  - cbn. lia.
  - rewrite bits_value_snoc, length_app. cbn [length].
    replace (Z.of_nat (length s + 1)) with (Z.succ (Z.of_nat (length s))) by lia.
    rewrite Z.pow_succ_r by lia.
    pose proof (bit_value_range c). lia.
Qed.

Lemma bits_value_repeat (n : nat) : bits_value (repeat "0"%char n) = 0%Z.
Proof.
  induction n as [|n IH]; [reflexivity|].
  change (repeat "0"%char (S n)) with (["0"%char] ++ repeat "0"%char n).
  rewrite bits_value_app, IH. reflexivity.
Qed.

Lemma low_bits_length (w : nat) (v : Z) : length (low_bits w v) = w.
Proof.
  revert v. induction w as [|w IH]; intros v; simpl; [reflexivity|].
  rewrite length_app, IH. simpl. lia.
Qed.

Lemma low_bits_all_bits (w : nat) (v : Z) : all_bits (low_bits w v) = true.
Proof.
  revert v. induction w as [|w IH]; intros v; simpl; [reflexivity|].
  rewrite all_bits_app, IH. destruct (Z.odd v); reflexivity.
Qed.

Lemma low_bits_value (w : nat) (v : Z) :
  bits_value (low_bits w v) = (v mod 2 ^ Z.of_nat w)%Z.
Proof.
  revert v. induction w as [|w IH]; intros v.
  - cbn. rewrite Z.mod_1_r. reflexivity.
  - cbn [low_bits]. rewrite bits_value_snoc, IH.
    rewrite Nat2Z.inj_succ, Z.pow_succ_r by lia.
    assert (Hb : bit_value (if Z.odd v then "1"%char else "0"%char) = (v mod 2)%Z).
    { rewrite Zmod_odd. destruct (Z.odd v); reflexivity. }
    rewrite Hb.
    rewrite (Z.rem_mul_r v 2 (2 ^ Z.of_nat w)) by lia.
    lia.
Qed.

(** A string of bits is determined by its length and its value. *)
Lemma low_bits_of_bits (s : jsstring) :
  all_bits s = true -> low_bits (length s) (bits_value s) = s.
Proof.
  induction s as [|c s IH] using rev_ind; intros Hs; [reflexivity|].
  rewrite all_bits_app, andb_true_iff in Hs. destruct Hs as [Hs Hc].
  cbn in Hc. rewrite andb_true_r in Hc.
  rewrite length_app. cbn [length]. rewrite Nat.add_1_r. cbn [low_bits].
  rewrite bits_value_snoc.
  assert (Hdiv : ((2 * bits_value s + bit_value c) / 2 = bits_value s)%Z).
  { pose proof (bit_value_range c).
    rewrite Z.mul_comm, Z.div_add_l by lia.
    rewrite Z.div_small by lia. lia. }
  rewrite Hdiv, (IH Hs). f_equal.
  rewrite Z.add_comm, Z.odd_add_mul_2.
  destruct (is_bit_inv c Hc); subst c; reflexivity.
Qed.

Lemma bits_unique (a b : jsstring) :
  all_bits a = true -> all_bits b = true ->
  length a = length b -> bits_value a = bits_value b -> a = b.
Proof.
  intros Ha Hb Hl Hv.
  rewrite <- (low_bits_of_bits a Ha), <- (low_bits_of_bits b Hb).
  rewrite Hl, Hv. reflexivity.
Qed.

(** ** [toString(2)], [parseInt(_, 2)] and the padding loop *)

Lemma pos_digits_all_bits (p : positive) : all_bits (pos_digits p) = true.
Proof.
  induction p as [p IH|p IH|]; simpl; [| |reflexivity];
    rewrite all_bits_app, IH; reflexivity.
Qed.

Lemma pos_digits_value (p : positive) : bits_value (pos_digits p) = Zpos p.
Proof.
  induction p as [p IH|p IH|]; simpl; [| |reflexivity];
    rewrite bits_value_snoc, IH; cbn [bit_value Ascii.eqb]; cbn; lia.
Qed.

Lemma pos_digits_nonempty (p : positive) : 0 < length (pos_digits p).
Proof.
  destruct p; simpl; rewrite ?length_app; simpl; lia.
Qed.

Lemma toString2_all_bits (v : Z) :
  (0 <= v)%Z -> all_bits (toString2 (Int v)) = true.
Proof.
  destruct v as [|p|p]; intros H; [reflexivity| |lia].
  apply pos_digits_all_bits.
Qed.

Lemma toString2_value (v : Z) :
  (0 <= v)%Z -> bits_value (toString2 (Int v)) = v.
Proof.
  destruct v as [|p|p]; intros H; [reflexivity| |lia].
  apply pos_digits_value.
Qed.

Lemma toString2_nonempty (v : number) : 0 < length (toString2 v).
Proof.
  destruct v as [|[|p|p]]; simpl; try lia.
  apply pos_digits_nonempty.
Qed.

(** With as much fuel as there are characters missing, the padding loop
    stops on its condition: it prepends exactly the missing zeros. *)
Lemma pad_zeros_enough (fuel : nat) (binary : jsstring) (width : nat) :
  width - length binary <= fuel ->
  pad_zeros fuel binary width
  = repeat "0"%char (width - length binary) ++ binary.
Proof.
  revert binary. induction fuel as [|f IH]; intros binary Hf.
  - simpl. replace (width - length binary) with 0 by lia. reflexivity.
  - simpl. destruct (Nat.ltb_spec (length binary) width) as [Hlt|Hge].
    + rewrite IH by (simpl; lia). cbn [length].
      replace (width - length binary) with (S (width - S (length binary))) by lia.
      change (repeat "0"%char (S (width - S (length binary))))
        with ("0"%char :: repeat "0"%char (width - S (length binary))).
      rewrite repeat_cons, <- app_assoc. reflexivity.
    + replace (width - length binary) with 0 by lia. reflexivity.
Qed.

Lemma drop_spaces_bits (s : jsstring) :
  all_bits s = true -> drop_spaces s = s.
Proof.
  destruct s as [|c s]; [reflexivity|]. simpl.
  rewrite andb_true_iff. intros [Hc _].
  rewrite (is_bit_not_space c Hc). reflexivity.
Qed.

Lemma digits_prefix_bits (s : jsstring) :
  all_bits s = true -> digits_prefix s = s.
Proof.
  induction s as [|c s IH]; [reflexivity|]. simpl.
  rewrite andb_true_iff. intros [Hc Hs]. rewrite Hc, IH by exact Hs.
  reflexivity.
Qed.

(** On a non-empty string of bits [parseInt(_, 2)] is its value. *)
Lemma parseInt2_bits (s : jsstring) :
  all_bits s = true -> s <> [] -> parseInt2 s = Int (bits_value s).
Proof.
  intros Hs Hne. unfold parseInt2. rewrite (drop_spaces_bits s Hs).
  destruct s as [|c s]; [congruence|].
  assert (Hc : is_bit c = true).
  { simpl in Hs. apply andb_true_iff in Hs. tauto. }
  assert (Hsign : Ascii.eqb c "-" = false /\ Ascii.eqb c "+" = false).
  { destruct (is_bit_inv c Hc); subst c; split; reflexivity. }
  destruct Hsign as [-> ->].
  rewrite (digits_prefix_bits (c :: s) Hs).
  f_equal. lia.
Qed.

Lemma write_written (value : Z) (width : nat) (w : BitWriter.t) :
  BitWriter.getData (BitWriter.write (Int value) width w)
  = BitWriter.getData w ++ written value width.
Proof. reflexivity. Qed.

Lemma written_cases (value : Z) (width : nat) :
  0 < width ->
  let binary := toString2 (Int value) in
  written value width
  = repeat "0"%char (width - length binary)
      ++ skipn (length binary - width) binary.
Proof.
  intros Hw binary. unfold written. fold binary.
  destruct (Nat.ltb_spec width (length binary)) as [Hlt|Hge].
  - unfold slice_last. destruct width as [|k]; [lia|].
    rewrite pad_zeros_enough by (rewrite length_skipn; lia).
    rewrite length_skipn.
    replace (S k - (length binary - (length binary - S k))) with 0 by lia.
    replace (S k - length binary) with 0 by lia. reflexivity.
  - rewrite pad_zeros_enough by lia.
    replace (length binary - width) with 0 by lia. reflexivity.
Qed.

Lemma written_low_bits (value : Z) (width : nat) :
  (0 <= value)%Z -> 0 < width ->
  written value width = low_bits width value.
Proof.
  intros Hv Hw. rewrite (written_cases value width Hw). cbv zeta.
  set (binary := toString2 (Int value)).
  assert (Hb : all_bits binary = true) by (apply toString2_all_bits; exact Hv).
  assert (Hval : bits_value binary = value) by (apply toString2_value; exact Hv).
  apply bits_unique.
  - rewrite all_bits_app, all_bits_repeat, all_bits_skipn by exact Hb.
    reflexivity.
  - apply low_bits_all_bits.
  - rewrite length_app, repeat_length, length_skipn, low_bits_length. lia.
  - rewrite bits_value_app, bits_value_repeat, low_bits_value.
    rewrite Z.mul_0_l, Z.add_0_l.
    set (k := length binary - width).
    assert (Hsplit : value
                     = (bits_value (firstn k binary)
                        * 2 ^ Z.of_nat (length (skipn k binary))
                        + bits_value (skipn k binary))%Z).
    { rewrite <- bits_value_app, firstn_skipn. symmetry. exact Hval. }
    pose proof (bits_value_range (skipn k binary)) as Hr.
    rewrite length_skipn in Hsplit, Hr.
    destruct (Nat.le_gt_cases (length binary) width) as [Hle|Hgt].
    + assert (Hk : k = 0) by (unfold k; lia).
      rewrite Hk in *. cbn [firstn skipn] in *.
      rewrite Nat.sub_0_r in Hr.
      rewrite Hval in Hr. rewrite Hval.
      symmetry. apply Z.mod_small. split; [lia|].
      apply Z.lt_le_trans with (2 ^ Z.of_nat (length binary))%Z; [lia|].
      apply Z.pow_le_mono_r; lia.
    + replace (length binary - k) with width in * by (unfold k; lia).
      rewrite Hsplit.
      rewrite Z.add_comm, Z.mod_add by (apply Z.pow_nonzero; lia).
      symmetry. apply Z.mod_small. exact Hr.
Qed.

(** ** The base64url transform *)

(** The alphabet, entry by entry: the character at an index, the index of
    that character, and the six-bit rendering of the index. *)
Lemma CHARS_table (n : nat) :
  n < 64 ->
  exists c,
    nth_error CHARS n = Some c
    /\ nth n CHARS "A"%char = c
    /\ CHARS_indexOf c = Z.of_nat n
    /\ pad_zeros 6 (toString2 (Int (Z.of_nat n))) 6 = low_bits 6 (Z.of_nat n).
Proof.
  intros Hn.
  do 64 (destruct n as [|n];
         [eexists; repeat split; vm_compute; reflexivity|]).
  lia.
Qed.

Lemma zero_padding_length (b : jsstring) :
  length (zero_padding b) < 6 /\ length (b ++ zero_padding b) mod 6 = 0.
Proof.
  unfold zero_padding. rewrite length_app, repeat_length.
  split.
  - apply Nat.mod_upper_bound. lia.
  - pose proof (Nat.div_mod_eq (length b) 6) as Hb.
    pose proof (Nat.mod_upper_bound (length b) 6 ltac:(lia)) as Hm.
    set (q := length b / 6) in *. set (m := length b mod 6) in *.
    destruct (Nat.eq_dec m 0) as [Hz|Hnz].
    + rewrite Hz. change ((6 - 0) mod 6) with 0.
      rewrite Hb, Hz, Nat.add_0_r, Nat.add_0_r, Nat.mul_comm.
      apply Nat.Div0.mod_mul.
    + rewrite (Nat.mod_small (6 - m)) by lia.
      replace (length b + (6 - m)) with ((q + 1) * 6) by lia.
      apply Nat.Div0.mod_mul.
Qed.

(** Five iterations are enough: the loop stops on its condition and has
    appended exactly [zero_padding]. *)
Lemma pad_to_six_enough (fuel : nat) (binary : jsstring) :
  (6 - length binary mod 6) mod 6 <= fuel ->
  pad_to_six fuel binary = binary ++ zero_padding binary.
Proof.
  unfold zero_padding.
  revert binary. induction fuel as [|f IH]; intros binary Hf.
  - cbn [pad_to_six].
    replace ((6 - length binary mod 6) mod 6) with 0 by lia.
    cbn [repeat]. rewrite app_nil_r. reflexivity.
  - cbn [pad_to_six].
    pose proof (Nat.div_mod_eq (length binary) 6) as Hb.
    pose proof (Nat.mod_upper_bound (length binary) 6 ltac:(lia)) as Hm.
    destruct (Nat.eqb_spec (length binary mod 6) 0) as [Hz|Hnz].
    + rewrite Hz. change ((6 - 0) mod 6) with 0.
      cbn [repeat]. rewrite app_nil_r. reflexivity.
    + assert (Hnext : (6 - length (binary ++ ["0"%char]) mod 6) mod 6
                      = (6 - length binary mod 6) mod 6 - 1
                      /\ 0 < (6 - length binary mod 6) mod 6).
      { rewrite length_app. cbn [length].
        set (q := length binary / 6) in *. set (m := length binary mod 6) in *.
        rewrite (Nat.mod_small (6 - m)) by lia.
        destruct (Nat.eq_dec m 5) as [H5|H5].
        - replace (length binary + 1) with ((q + 1) * 6) by lia.
          rewrite Nat.Div0.mod_mul. rewrite H5. split; [reflexivity|lia].
        - replace (length binary + 1) with ((m + 1) + q * 6) by lia.
          rewrite Nat.Div0.mod_add, (Nat.mod_small (m + 1)) by lia.
          rewrite Nat.mod_small by lia. lia. }
      destruct Hnext as [Hnext Hpos].
      rewrite IH by lia. rewrite Hnext, <- app_assoc. f_equal.
      set (p := (6 - length binary mod 6) mod 6) in *.
      destruct p as [|p]; [lia|].
      cbn [repeat app]. replace (S p - 1) with p by lia. reflexivity.
Qed.

Lemma pad_to_six_five (binary : jsstring) :
  pad_to_six 5 binary = binary ++ zero_padding binary.
Proof.
  apply pad_to_six_enough.
  pose proof (Nat.mod_upper_bound (6 - length binary mod 6) 6). lia.
Qed.

Lemma groups_of_six_concat (n : nat) (b : jsstring) :
  length b = 6 * n -> concat (groups_of_six n b) = b.
Proof.
  revert b. induction n as [|n IH]; intros b Hb.
  - destruct b; [reflexivity|simpl in Hb; lia].
  - cbn [groups_of_six concat]. rewrite IH by (rewrite length_skipn; lia).
    apply firstn_skipn.
Qed.

Lemma groups_of_six_groups (n : nat) (b : jsstring) :
  all_bits b = true -> length b = 6 * n ->
  Forall is_group (groups_of_six n b).
Proof.
  revert b. induction n as [|n IH]; intros b Hb Hl; [constructor|].
  cbn [groups_of_six]. constructor.
  - split; [apply all_bits_firstn; exact Hb|].
    rewrite length_firstn. lia.
  - apply IH; [apply all_bits_skipn; exact Hb|].
    rewrite length_skipn. lia.
Qed.

Lemma group_value (g : jsstring) :
  is_group g ->
  parseInt2 g = Int (bits_value g)
  /\ (0 <= bits_value g < 64)%Z
  /\ low_bits 6 (bits_value g) = g.
Proof.
  intros [Hb Hl]. split; [|split].
  - apply parseInt2_bits; [exact Hb|]. destruct g; [discriminate|congruence].
  - pose proof (bits_value_range g) as H. rewrite Hl in H. exact H.
  - rewrite <- Hl. apply low_bits_of_bits. exact Hb.
Qed.

Lemma group_symbol (g : jsstring) :
  is_group g ->
  CHARS_at (parseInt2 g) = Some (symbol_of g)
  /\ CHARS_indexOf (symbol_of g) = bits_value g
  /\ pad_zeros 6 (toString2 (Int (bits_value g))) 6 = g.
Proof.
  intros Hg. destruct (group_value g Hg) as (Hp & Hr & Hlow).
  destruct (CHARS_table (Z.to_nat (bits_value g)) ltac:(lia))
    as (c & Hnth & Hn & Hidx & Hpad).
  rewrite Z2Nat.id in Hidx, Hpad by lia.
  unfold symbol_of. rewrite Hn. split; [|split].
  - rewrite Hp. unfold CHARS_at.
    destruct (Z.ltb_spec (bits_value g) 0); [lia|exact Hnth].
  - exact Hidx.
  - rewrite Hpad. exact Hlow.
Qed.

Lemma substring_segment (i : nat) (binary : jsstring) :
  substring i (i + 6) binary = firstn 6 (skipn i binary).
Proof.
  unfold substring.
  rewrite Nat.min_l, Nat.max_r by lia.
  replace (i + 6 - i) with 6 by lia. reflexivity.
Qed.

(** With one unit of fuel per remaining group, the loop over the segments
    stops on its condition and has appended one symbol per group. *)
Lemma encode_segments_enough (n fuel i : nat) (binary res : jsstring) :
  all_bits binary = true ->
  length binary = i + 6 * n -> n <= fuel ->
  encode_segments fuel i binary res
  = res ++ map symbol_of (groups_of_six n (skipn i binary)).
Proof.
  intros Hb. revert fuel i res.
  induction n as [|n IH]; intros fuel i res Hl Hf.
  - cbn [groups_of_six map]. rewrite app_nil_r.
    destruct fuel as [|f]; [reflexivity|]. cbn [encode_segments].
    destruct (Nat.ltb_spec i (length binary)); [lia|reflexivity].
  - destruct fuel as [|f]; [lia|]. cbn [encode_segments].
    destruct (Nat.ltb_spec i (length binary)); [|lia].
    rewrite substring_segment.
    assert (Hg : is_group (firstn 6 (skipn i binary))).
    { split.
      - apply all_bits_firstn, all_bits_skipn, Hb.
      - rewrite length_firstn, length_skipn. lia. }
    destruct (group_symbol _ Hg) as (Hat & _ & _).
    rewrite Hat. cbn [append_value].
    rewrite IH by lia.
    cbn [groups_of_six map]. rewrite skipn_skipn, <- app_assoc.
    replace (6 + i) with (i + 6) by lia. reflexivity.
Qed.

(** The loops of [binaryStringToBase64] compute the transform of the
    format. *)
Lemma binaryStringToBase64_spec (b : jsstring) :
  all_bits b = true ->
  binaryStringToBase64 b = spec_binaryStringToBase64 b.
Proof.
  intros Hb. unfold binaryStringToBase64, spec_binaryStringToBase64.
  rewrite pad_to_six_five. cbv zeta.
  set (padded := b ++ zero_padding b).
  assert (Hp : all_bits padded = true).
  { unfold padded, zero_padding.
    rewrite all_bits_app, Hb, all_bits_repeat. reflexivity. }
  destruct (zero_padding_length b) as [_ Hmod]. fold padded in Hmod.
  pose proof (Nat.div_mod_eq (length padded) 6) as Hdiv.
  rewrite (encode_segments_enough (length padded / 6)).
  - reflexivity.
  - exact Hp.
  - lia.
  - apply Nat.Div0.div_le_upper_bound. lia.
Qed.

Lemma decode_chars_symbols (gs : list jsstring) (binary : jsstring) :
  Forall is_group gs ->
  decode_chars (map symbol_of gs) binary = Value (binary ++ concat gs).
Proof.
  intros Hgs. revert binary.
  induction Hgs as [|g gs Hg _ IH]; intros binary.
  - cbn. rewrite app_nil_r. reflexivity.
  - cbn [map decode_chars concat].
    destruct (group_symbol g Hg) as (_ & Hidx & Hpad).
    destruct (group_value g Hg) as (_ & Hr & _).
    rewrite Hidx, Hpad.
    destruct (Z.eqb_spec (bits_value g) (-1)); [lia|].
    rewrite IH, <- app_assoc. reflexivity.
Qed.

(** The symbols of the padded stream, group by group. *)
Lemma binaryStringToBase64_groups (b : jsstring) :
  all_bits b = true ->
  exists n,
    length (b ++ zero_padding b) = 6 * n
    /\ Forall is_group (groups_of_six n (b ++ zero_padding b))
    /\ binaryStringToBase64 b
       = map symbol_of (groups_of_six n (b ++ zero_padding b)).
Proof.
  intros Hb. exists (length (b ++ zero_padding b) / 6).
  destruct (zero_padding_length b) as [_ Hmod].
  pose proof (Nat.div_mod_eq (length (b ++ zero_padding b)) 6) as Hdiv.
  assert (Hl : length (b ++ zero_padding b)
               = 6 * (length (b ++ zero_padding b) / 6)) by lia.
  split; [exact Hl|]. split.
  - apply groups_of_six_groups; [|exact Hl].
    unfold zero_padding. rewrite all_bits_app, Hb, all_bits_repeat.
    reflexivity.
  - rewrite binaryStringToBase64_spec by exact Hb. reflexivity.
Qed.

Lemma base64_roundtrip (b : jsstring) :
  all_bits b = true ->
  base64ToBinaryString (binaryStringToBase64 b)
  = Value (b ++ zero_padding b).
Proof.
  intros Hb.
  destruct (binaryStringToBase64_groups b Hb) as (n & Hl & Hgs & ->).
  unfold base64ToBinaryString.
  rewrite decode_chars_symbols by exact Hgs.
  rewrite groups_of_six_concat by exact Hl. reflexivity.
Qed.

(** C8.  For every bit sequence [b], [binaryStringToBase64 b] is the
    string of the alphabet characters of the consecutive 6-bit groups of
    [b] right-padded with zero bits to a multiple of 6 (fewer than 6 of
    them), and [base64ToBinaryString] of it is [b] followed by exactly
    those padding bits, of a length that is a multiple of 6. *)
Theorem base_text_transform_roundtrip (b : jsstring) :
  all_bits b = true ->
  binaryStringToBase64 b = spec_binaryStringToBase64 b
  /\ base64ToBinaryString (binaryStringToBase64 b)
     = Value (b ++ zero_padding b)
  /\ all_bits (zero_padding b) = true
  /\ bits_value (zero_padding b) = 0%Z
  /\ length (zero_padding b) < 6
  /\ length (b ++ zero_padding b) mod 6 = 0.
Proof.
  intros Hb. destruct (zero_padding_length b) as [Hlt Hmod].
  split; [|split; [|split; [|split; [|split]]]].
  - apply binaryStringToBase64_spec, Hb.
  - apply base64_roundtrip, Hb.
  - apply all_bits_repeat.
  - apply bits_value_repeat.
  - exact Hlt.
  - exact Hmod.
Qed.

Lemma base_text_transform_roundtrip_witness :
  all_bits (lit "0100001") = true
  /\ binaryStringToBase64 (lit "0100001") = lit "Qg"
  /\ base64ToBinaryString (binaryStringToBase64 (lit "0100001"))
     = Value (lit "010000100000").
Proof.
  split; [reflexivity|].
  destruct (base_text_transform_roundtrip (lit "0100001") eq_refl)
    as (Henc & Hdec & _).
  split; [rewrite Henc; reflexivity|rewrite Hdec; reflexivity].
Defined.

(** ** The bit reader *)

Lemma remaining_length (r : BitReader.t) :
  length (remaining r) = length (BitReader.bits r) - BitReader.pointer r.
Proof. unfold remaining. apply length_skipn. Qed.

Lemma remaining_advance (w : nat) (r : BitReader.t) :
  remaining (advance w r) = skipn w (remaining r).
Proof.
  unfold remaining, advance. cbn [BitReader.bits BitReader.pointer].
  rewrite skipn_skipn. f_equal. lia.
Qed.

Lemma remaining_advance_app (w : nat) (r : BitReader.t) (f rest : jsstring) :
  remaining r = f ++ rest -> length f = w ->
  remaining (advance w r) = rest.
Proof.
  intros Hr Hl. rewrite remaining_advance, Hr, skipn_app, <- Hl.
  rewrite skipn_all, Nat.sub_diag. reflexivity.
Qed.

Lemma substring_chunk (p w : nat) (s : jsstring) :
  substring p (p + w) s = firstn w (skipn p s).
Proof.
  unfold substring. rewrite Nat.min_l, Nat.max_r by lia.
  replace (p + w - p) with w by lia. reflexivity.
Qed.

(** A read succeeds exactly when [width] bits remain; it returns the
    value of the next [width] characters and moves the cursor. *)
Lemma read_enough (w : nat) (r : BitReader.t) :
  0 < w -> w <= length (remaining r) ->
  BitReader.read w r = Value (parseInt2 (firstn w (remaining r)), advance w r).
Proof.
  intros Hw Hl. rewrite remaining_length in Hl. unfold BitReader.read.
  destruct (Nat.ltb_spec (length (BitReader.bits r)) (BitReader.pointer r + w));
    [lia|].
  rewrite substring_chunk. reflexivity.
Qed.

Lemma read_short (w : nat) (r : BitReader.t) :
  length (remaining r) < w ->
  BitReader.read w r = Thrown "Unexpected end of data".
Proof.
  intros Hl. rewrite remaining_length in Hl. unfold BitReader.read.
  destruct (Nat.ltb_spec (length (BitReader.bits r)) (BitReader.pointer r + w));
    [reflexivity|lia].
Qed.

Lemma read_inv (w : nat) (r r' : BitReader.t) (v : number) :
  BitReader.read w r = Value (v, r') ->
  BitReader.pointer r + w <= length (BitReader.bits r)
  /\ v = parseInt2 (firstn w (remaining r))
  /\ r' = advance w r.
Proof.
  unfold BitReader.read.
  destruct (Nat.ltb_spec (length (BitReader.bits r)) (BitReader.pointer r + w));
    [discriminate|].
  rewrite substring_chunk. intros Heq. inversion Heq. auto.
Qed.

(** Reading a field that was written with [low_bits]. *)
Lemma read_field (w : nat) (v : Z) (rest : jsstring) (r : BitReader.t) :
  0 < w -> remaining r = low_bits w v ++ rest ->
  BitReader.read w r = Value (Int (v mod 2 ^ Z.of_nat w), advance w r)
  /\ remaining (advance w r) = rest.
Proof.
  intros Hw Hr. split.
  - rewrite read_enough; [|exact Hw|].
    + rewrite Hr, firstn_app, low_bits_length, Nat.sub_diag.
      rewrite firstn_all2 by (rewrite low_bits_length; lia).
      cbn [firstn]. rewrite app_nil_r.
      rewrite parseInt2_bits, low_bits_value.
      * reflexivity.
      * apply low_bits_all_bits.
      * intros He. apply (f_equal (@length ascii)) in He.
        rewrite low_bits_length in He. simpl in He. lia.
    + rewrite Hr, length_app, low_bits_length. lia.
  - apply remaining_advance_app with (f := low_bits w v); [exact Hr|].
    apply low_bits_length.
Qed.

(** On a stream of bits a successful read returns an integer of the
    field's width. *)
Lemma read_bits_inv (w : nat) (r r' : BitReader.t) (v : number) :
  0 < w -> all_bits (BitReader.bits r) = true ->
  BitReader.read w r = Value (v, r') ->
  BitReader.pointer r + w <= length (BitReader.bits r)
  /\ r' = advance w r
  /\ exists z, v = Int z /\ (0 <= z < 2 ^ Z.of_nat w)%Z.
Proof.
  intros Hw Hb Hread. destruct (read_inv w r r' v Hread) as (Hle & Hv & Hr').
  split; [exact Hle|]. split; [exact Hr'|].
  set (chunk := firstn w (remaining r)) in *.
  assert (Hlen : length chunk = w).
  { unfold chunk. rewrite length_firstn, remaining_length. lia. }
  assert (Hcb : all_bits chunk = true).
  { unfold chunk, remaining. apply all_bits_firstn, all_bits_skipn, Hb. }
  exists (bits_value chunk). split.
  - rewrite Hv. apply parseInt2_bits; [exact Hcb|].
    intros He. rewrite He in Hlen. simpl in Hlen. lia.
  - pose proof (bits_value_range chunk) as H. rewrite Hlen in H. exact H.
Qed.

(** ** The bit writer *)

Lemma write_int (v : Z) (width : nat) (w : BitWriter.t) :
  (0 <= v)%Z -> 0 < width ->
  BitWriter.write (Int v) width w
  = BitWriter.mk (BitWriter.bits w ++ low_bits width v).
Proof.
  intros Hv Hw.
  change (BitWriter.write (Int v) width w)
    with (BitWriter.mk (BitWriter.bits w ++ written v width)).
  rewrite written_low_bits by assumption. reflexivity.
Qed.

(** C7.  For a non-negative integer [value] and a positive [width],
    [write] appends exactly [width] bits: the binary rendering of [value]
    left-padded with zero bits to [width], or its last [width] digits when
    it is longer, which are the [width] lowest bits of [value]. *)
Theorem write_contract (value : Z) (width : nat) (w : BitWriter.t) :
  (0 <= value)%Z -> 0 < width ->
  let binary := toString2 (Int value) in
  exists s,
    BitWriter.getData (BitWriter.write (Int value) width w)
    = BitWriter.getData w ++ s
    /\ length s = width
    /\ all_bits s = true
    /\ all_bits binary = true
    /\ bits_value binary = value
    /\ s = repeat "0"%char (width - length binary)
           ++ skipn (length binary - width) binary
    /\ bits_value s = (value mod 2 ^ Z.of_nat width)%Z.
Proof.
  intros Hv Hw binary. exists (written value width).
  split; [apply write_written|].
  rewrite (written_low_bits value width Hv Hw).
  split; [apply low_bits_length|].
  split; [apply low_bits_all_bits|].
  split; [apply toString2_all_bits, Hv|].
  split; [apply toString2_value, Hv|].
  split; [|apply low_bits_value].
  rewrite <- (written_low_bits value width Hv Hw).
  apply written_cases, Hw.
Qed.

Lemma write_contract_witness :
  BitWriter.getData (BitWriter.write (Int 99) 5 (BitWriter.mk (lit "01")))
  = lit "0100011"
  /\ BitWriter.getData (BitWriter.write (Int 5) 7 (BitWriter.mk (lit "01")))
     = lit "010000101".
Proof.
  split.
  - destruct (write_contract 99 5 (BitWriter.mk (lit "01"))
                ltac:(lia) ltac:(lia)) as (s & Hw & _ & _ & _ & _ & Hs & _).
    rewrite Hw, Hs. reflexivity.
  - destruct (write_contract 5 7 (BitWriter.mk (lit "01"))
                ltac:(lia) ltac:(lia)) as (s & Hw & _ & _ & _ & _ & Hs & _).
    rewrite Hw, Hs. reflexivity.
Defined.

(** ** The stream of the encoder *)

Lemma nonneg_inv (n : number) :
  nonneg n = true -> exists z, n = Int z /\ (0 <= z)%Z.
Proof.
  destruct n as [|z]; [discriminate|]. simpl. intros H.
  exists z. split; [reflexivity|lia].
Qed.

Lemma write_min (n : number) (m : Z) (width : nat) (w : BitWriter.t) :
  nonneg n = true -> (0 <= m)%Z -> 0 < width ->
  BitWriter.write (Math_min n (Int m)) width w
  = BitWriter.mk (BitWriter.bits w ++ low_bits width (int_of (Math_min n (Int m)))).
Proof.
  intros Hn Hm Hw. destruct (nonneg_inv n Hn) as (z & -> & Hz).
  cbn [Math_min int_of]. apply write_int; lia.
Qed.

Lemma write_step_bits (w : BitWriter.t) (s : StepParameters.t) :
  step_ok s = true ->
  write_step w s = BitWriter.mk (BitWriter.bits w ++ step_bits s).
Proof.
  unfold step_ok. rewrite andb_true_iff. intros [Hc Hs].
  unfold write_step, step_bits.
  rewrite (write_min _ 31 5 w Hc) by lia.
  rewrite (write_min _ 127 7 _ Hs) by lia.
  rewrite !write_int by (try lia; destruct (StepParameters.isCycleLocked s),
                           (StepParameters.isSetupLocked s); cbn; lia).
  cbn [BitWriter.bits]. rewrite <- !app_assoc. reflexivity.
Qed.

Lemma fold_write_step (steps : list StepParameters.t) (w : BitWriter.t) :
  forallb step_ok steps = true ->
  fold_left write_step steps w
  = BitWriter.mk (BitWriter.bits w ++ concat (map step_bits steps)).
Proof.
  revert w. induction steps as [|s steps IH]; intros w.
  - intros _. cbn. rewrite app_nil_r. destruct w. reflexivity.
  - cbn [forallb fold_left map concat]. rewrite andb_true_iff. intros [Hs Hr].
    rewrite write_step_bits by exact Hs. rewrite IH by exact Hr.
    cbn [BitWriter.bits]. rewrite <- app_assoc. reflexivity.
Qed.

Lemma global_batch_nonneg (steps : list StepParameters.t) :
  steps_ok steps = true ->
  exists z, global_batch steps = Int z /\ (1 <= z <= 63)%Z.
Proof.
  unfold steps_ok, global_batch. rewrite andb_true_iff. intros [_ Hb].
  destruct steps as [|s steps].
  - exists 10%Z. split; [reflexivity|lia].
  - unfold batch_ok in Hb.
    destruct (StepParameters.batchSize s) as [[|z]|]; cbn [or_default].
    + exists 10%Z. split; [reflexivity|lia].
    + destruct (Z.eqb_spec z 0).
      * exists 10%Z. split; [reflexivity|lia].
      * exists (Z.min z 63). split; [reflexivity|lia].
    + exists 10%Z. split; [reflexivity|lia].
Qed.

Lemma global_lock_range (steps : list StepParameters.t) :
  (0 <= global_lock steps <= 1)%Z.
Proof.
  unfold global_lock, flag_of.
  destruct steps as [|s ?]; [lia|].
  destruct (StepParameters.isBatchLocked s) as [[|]|]; lia.
Qed.

Lemma clamped_count_range (steps : list StepParameters.t) :
  (MIN_STEPS <= clamped_count steps <= MAX_STEPS)%Z.
Proof. unfold clamped_count, MIN_STEPS, MAX_STEPS. lia. Qed.

(** The encoder writes the header and one record per element of the
    list, and hands the stream to the transform. *)
Lemma generateScenarioCode_bits (steps : list StepParameters.t)
  (timeUnit : TimeUnit) :
  steps_ok steps = true ->
  generateScenarioCode steps timeUnit
  = binaryStringToBase64 (scenario_bits steps timeUnit).
Proof.
  intros Hok. unfold generateScenarioCode.
  fold (clamped_count steps) (global_batch steps) (global_lock steps).
  pose proof (clamped_count_range steps) as Hc. unfold MIN_STEPS, MAX_STEPS in Hc.
  pose proof (global_lock_range steps) as Hl.
  destruct (global_batch_nonneg steps Hok) as (b & Hb & Hbr).
  assert (Hsteps : forallb step_ok steps = true).
  { unfold steps_ok in Hok. apply andb_true_iff in Hok. tauto. }
  rewrite (write_int 1 2) by lia.
  rewrite (write_int (unitMap timeUnit) 2) by (destruct timeUnit; cbn; lia).
  rewrite (write_int (clamped_count steps - MIN_STEPS) 2)
    by (unfold MIN_STEPS; lia).
  unfold scenario_bits, header_bits.
  rewrite Hb. rewrite (write_int b 6) by lia.
  rewrite (write_int (global_lock steps) 1) by lia.
  rewrite fold_write_step by exact Hsteps.
  cbn [BitWriter.bits BitWriter.getData BitWriter.new int_of app].
  rewrite <- !app_assoc. reflexivity.
Qed.

(** ** Decoding a stream of the encoder *)

Lemma read_small (w : nat) (v : Z) (rest : jsstring) (r : BitReader.t) :
  0 < w -> (0 <= v < 2 ^ Z.of_nat w)%Z ->
  remaining r = low_bits w v ++ rest ->
  BitReader.read w r = Value (Int v, advance w r)
  /\ remaining (advance w r) = rest.
Proof.
  intros Hw Hv Hr. destruct (read_field w v rest r Hw Hr) as [Hread Hrem].
  rewrite Z.mod_small in Hread by exact Hv. auto.
Qed.

(** One read of a known field, under the outermost [bind] of the goal. *)
Ltac read_known Hr Hrange :=
  match type of Hr with
  | remaining ?r = low_bits ?w ?v ++ ?rest =>
      let Hread := fresh "Hread" in
      let Hrem := fresh "Hrem" in
      destruct (read_small w v rest r ltac:(lia) Hrange Hr) as [Hread Hrem];
      unfold bind at 1; rewrite Hread; cbv beta iota;
      clear Hread Hr; rename Hrem into Hr
  end.

Lemma min_field (n : number) (m : Z) :
  nonneg n = true -> (0 <= m)%Z ->
  Math_min n (Int m) = Int (int_of (Math_min n (Int m)))
  /\ (0 <= int_of (Math_min n (Int m)) <= m)%Z.
Proof.
  intros Hn Hm. destruct (nonneg_inv n Hn) as (z & -> & Hz).
  cbn [Math_min int_of]. split; [reflexivity|lia].
Qed.

Lemma flag_field (b : bool) :
  (0 <= flag_of (Some b) < 2 ^ Z.of_nat 1)%Z
  /\ number_eqb (Int (flag_of (Some b))) (Int 1) = b.
Proof. destruct b; cbn; split; try reflexivity; lia. Qed.

(** The loop over the steps reads back the records of the encoder. *)
Lemma read_steps_bits (l : list StepParameters.t) (acc : list ScenarioStep.t)
  (rest : jsstring) (r : BitReader.t) :
  forallb step_ok l = true ->
  remaining r = concat (map step_bits l) ++ rest ->
  exists r',
    read_steps (length l) acc r = Value (acc ++ map decoded_step l, r')
    /\ remaining r' = rest.
Proof.
  revert acc r. induction l as [|s l IH]; intros acc r Hok Hr.
  - exists r. cbn. rewrite app_nil_r. auto.
  - cbn [forallb] in Hok. apply andb_true_iff in Hok. destruct Hok as [Hs Hl].
    pose proof Hs as Hs'. unfold step_ok in Hs'.
    apply andb_true_iff in Hs'. destruct Hs' as [Hc Ht].
    destruct (min_field _ 31 Hc ltac:(lia)) as [Hce Hcr].
    destruct (min_field _ 127 Ht ltac:(lia)) as [Hte Htr].
    destruct (flag_field (StepParameters.isCycleLocked s)) as [Hf1 He1].
    destruct (flag_field (StepParameters.isSetupLocked s)) as [Hf2 He2].
    assert (H5 : (0 <= int_of (Math_min (StepParameters.cycleTime s) (Int 31))
                  < 2 ^ Z.of_nat 5)%Z)
      by (change (2 ^ Z.of_nat 5)%Z with 32%Z; lia).
    assert (H7 : (0 <= int_of (Math_min (StepParameters.setupTime s) (Int 127))
                  < 2 ^ Z.of_nat 7)%Z)
      by (change (2 ^ Z.of_nat 7)%Z with 128%Z; lia).
    cbn [map concat] in Hr. unfold step_bits in Hr.
    rewrite <- !app_assoc in Hr.
    cbn [length read_steps].
    read_known Hr H5. read_known Hr H7.
    read_known Hr Hf1. read_known Hr Hf2.
    rewrite He1, He2, <- Hce, <- Hte.
    match goal with
    | |- exists r', read_steps _ ?a _ = _ /\ _ =>
        destruct (IH a _ Hl Hr) as (r' & Hread & Hrem)
    end.
    exists r'. split; [|exact Hrem].
    rewrite Hread, <- app_assoc. reflexivity.
Qed.
Lemma forallb_firstn {A} (f : A -> bool) (n : nat) (l : list A) :
  forallb f l = true -> forallb f (firstn n l) = true.
Proof.
  revert n. induction l as [|x l IH]; intros [|n]; cbn; auto.
  rewrite !andb_true_iff. intros [Hx Hl]. auto.
Qed.

Lemma timeUnits_at_unitMap (timeUnit : TimeUnit) :
  timeUnits_at (Int (unitMap timeUnit)) = Some timeUnit
  /\ number_gtb (Int (unitMap timeUnit)) (Int 2) = false
  /\ (0 <= unitMap timeUnit < 2 ^ Z.of_nat 2)%Z.
Proof. destruct timeUnit; cbn; repeat split; congruence || lia. Qed.

Lemma read_scenario_bits (steps : list StepParameters.t) (timeUnit : TimeUnit)
  (rest : jsstring) :
  steps_ok steps = true -> 2 <= length steps ->
  exists r',
    read_scenario (BitReader.new (scenario_bits steps timeUnit ++ rest))
    = Value (Some (decoded steps timeUnit), r').
Proof.
  intros Hok Hlen.
  set (r := BitReader.new (scenario_bits steps timeUnit ++ rest)).
  assert (Hr : remaining r = scenario_bits steps timeUnit ++ rest) by reflexivity.
  clearbody r.
  destruct (timeUnits_at_unitMap timeUnit) as (Hu & Hgt & Hur).
  pose proof (clamped_count_range steps) as Hc.
  pose proof (global_lock_range steps) as Hl.
  destruct (global_batch_nonneg steps Hok) as (b & Hb & Hbr).
  assert (Hsteps : forallb step_ok steps = true).
  { unfold steps_ok in Hok. apply andb_true_iff in Hok. tauto. }
  assert (H1 : (0 <= 1 < 2 ^ Z.of_nat 2)%Z) by (cbn; lia).
  assert (Hcr : (0 <= clamped_count steps - MIN_STEPS < 2 ^ Z.of_nat 2)%Z)
    by (unfold MIN_STEPS, MAX_STEPS in *; cbn; lia).
  assert (Hb6 : (0 <= int_of (global_batch steps) < 2 ^ Z.of_nat 6)%Z)
    by (rewrite Hb; cbn; lia).
  assert (Hl1 : (0 <= global_lock steps < 2 ^ Z.of_nat 1)%Z) by (cbn; lia).
  unfold scenario_bits, header_bits in Hr. rewrite <- !app_assoc in Hr.
  unfold read_scenario.
  read_known Hr H1.
  change (negb (number_eqb (Int 1) (Int 1))) with false. cbv iota.
  read_known Hr Hur. rewrite Hgt.
  read_known Hr Hcr. read_known Hr Hb6. read_known Hr Hl1.
  assert (Hcount : loop_count
                     (number_add (Int (clamped_count steps - MIN_STEPS))
                        (Int MIN_STEPS))
                   = length (firstn (Z.to_nat MAX_STEPS) steps)).
  { cbn [number_add loop_count]. rewrite length_firstn.
    unfold clamped_count, MIN_STEPS, MAX_STEPS. lia. }
  rewrite <- (firstn_skipn (Z.to_nat MAX_STEPS) steps) in Hr at 1.
  rewrite map_app, concat_app, <- app_assoc in Hr.
  assert (Hfirst : forallb step_ok (firstn (Z.to_nat MAX_STEPS) steps) = true).
  { apply forallb_firstn, Hsteps. }
  unfold bind at 1. rewrite Hcount.
  destruct (read_steps_bits _ [] _ _ Hfirst Hr) as (r' & Hread & _).
  rewrite Hread. cbn [app]. unfold ret, decoded.
  exists r'. rewrite Hu, Hb.
  reflexivity.
Qed.

(** ** The token of the encoder *)

Lemma scenario_bits_all_bits (steps : list StepParameters.t)
  (timeUnit : TimeUnit) :
  all_bits (scenario_bits steps timeUnit) = true.
Proof.
  unfold scenario_bits, header_bits.
  rewrite !all_bits_app, !low_bits_all_bits. cbn [andb].
  induction steps as [|s steps IH]; [reflexivity|].
  cbn [map concat]. rewrite all_bits_app, IH.
  unfold step_bits. rewrite !all_bits_app, !low_bits_all_bits. reflexivity.
Qed.

Lemma scenario_bits_length (steps : list StepParameters.t)
  (timeUnit : TimeUnit) :
  length (scenario_bits steps timeUnit) = 13 + 14 * length steps.
Proof.
  unfold scenario_bits, header_bits.
  rewrite !length_app, !low_bits_length.
  induction steps as [|s steps IH]; [reflexivity|].
  cbn [map concat length]. rewrite length_app.
  unfold step_bits at 1. rewrite !length_app, !low_bits_length. lia.
Qed.

Lemma CHARS_no_spaces : no_spaces CHARS = true.
Proof. reflexivity. Qed.

Lemma symbol_of_no_space (g : jsstring) :
  is_group g -> is_space (symbol_of g) = false.
Proof.
  intros Hg. destruct (group_value g Hg) as (_ & Hr & _).
  pose proof CHARS_no_spaces as H. unfold no_spaces in H.
  rewrite forallb_forall in H.
  apply negb_true_iff, H. unfold symbol_of. apply nth_In.
  change (length CHARS) with 64. lia.
Qed.

Lemma symbols_no_spaces (gs : list jsstring) :
  Forall is_group gs -> no_spaces (map symbol_of gs) = true.
Proof.
  induction 1 as [|g gs Hg _ IH]; [reflexivity|].
  unfold no_spaces in *. cbn [map forallb].
  rewrite (symbol_of_no_space g Hg), IH. reflexivity.
Qed.

Lemma drop_spaces_no_spaces (s : jsstring) :
  no_spaces s = true -> drop_spaces s = s.
Proof.
  destruct s as [|c s]; [reflexivity|]. cbn.
  rewrite andb_true_iff, negb_true_iff. intros [-> _]. reflexivity.
Qed.

Lemma no_spaces_rev (s : jsstring) :
  no_spaces s = true -> no_spaces (rev s) = true.
Proof.
  unfold no_spaces. rewrite !forallb_forall. intros H x Hx.
  apply H, in_rev, Hx.
Qed.

(** The cleanup of [parseScenarioCode] leaves a string without white
    space as it is. *)
Lemma clean_no_spaces (s : jsstring) :
  no_spaces s = true -> remove_spaces (trim s) = s.
Proof.
  intros Hs. unfold trim.
  rewrite (drop_spaces_no_spaces s Hs).
  rewrite (drop_spaces_no_spaces (rev s) (no_spaces_rev s Hs)).
  rewrite rev_involutive. unfold remove_spaces.
  induction s as [|c s IH]; [reflexivity|].
  cbn in Hs |- *. apply andb_true_iff in Hs. destruct Hs as [Hc Hs].
  rewrite Hc, IH by exact Hs. reflexivity.
Qed.

(** Decoding what the encoder produced, for every list of at least
    [MIN_STEPS] well-formed steps: the clamped values of the first
    [MAX_STEPS] steps. *)
Lemma parse_generate (steps : list StepParameters.t) (timeUnit : TimeUnit) :
  steps_ok steps = true -> 2 <= length steps ->
  parseScenarioCode (generateScenarioCode steps timeUnit)
  = Some (decoded steps timeUnit).
Proof.
  intros Hok Hlen.
  rewrite (generateScenarioCode_bits steps timeUnit Hok).
  pose proof (scenario_bits_all_bits steps timeUnit) as Hb.
  pose proof (scenario_bits_length steps timeUnit) as Hl.
  pose proof (base64_roundtrip _ Hb) as Hdec.
  destruct (binaryStringToBase64_groups _ Hb) as (n & Hn & Hgs & Htok).
  unfold parseScenarioCode, parse_try.
  rewrite clean_no_spaces
    by (rewrite Htok; apply symbols_no_spaces; exact Hgs).
  rewrite Hdec.
  destruct (read_scenario_bits steps timeUnit
              (zero_padding (scenario_bits steps timeUnit)) Hok Hlen)
    as (r' & ->).
  rewrite Htok.
  destruct n as [|n]; [rewrite length_app in Hn; lia|].
  reflexivity.
Qed.

(** ** Decoding an arbitrary stream of bits *)

Lemma advance_advance (a b : nat) (r : BitReader.t) :
  advance b (advance a r) = advance (a + b) r.
Proof.
  unfold advance. cbn [BitReader.bits BitReader.pointer].
  f_equal. lia.
Qed.

Lemma in_field_intro (z max : Z) :
  (0 <= z <= max)%Z -> in_field (Int z) max = true.
Proof.
  intros H. unfold in_field.
  apply andb_true_iff. split; apply Z.leb_le; lia.
Qed.

(** One successful read of an unknown field in hypothesis [H], on a
    stream of bits. *)
Ltac read_unknown H Hb :=
  unfold bind at 1 in H;
  match type of H with
  | context [BitReader.read ?w ?r] =>
      let v := fresh "v" in
      let r1 := fresh "r" in
      let E := fresh "E" in
      let Hle := fresh "Hle" in
      let z := fresh "z" in
      let Hz := fresh "Hz" in
      destruct (BitReader.read w r) as [[v r1]|] eqn:E; [|discriminate H];
      apply read_bits_inv in E; [|lia|exact Hb];
      destruct E as (Hle & -> & z & -> & Hz);
      cbn [advance BitReader.bits BitReader.pointer] in Hle
  end.

Lemma read_steps_inv (n : nat) (acc l : list ScenarioStep.t)
  (r r' : BitReader.t) :
  all_bits (BitReader.bits r) = true ->
  forallb step_complete acc = true ->
  BitReader.pointer r <= length (BitReader.bits r) ->
  read_steps n acc r = Value (l, r') ->
  r' = advance (14 * n) r
  /\ BitReader.pointer r + 14 * n <= length (BitReader.bits r)
  /\ length l = length acc + n
  /\ forallb step_complete l = true.
Proof.
  revert acc r. induction n as [|n IH]; intros acc r Hb Hacc Hp H.
  - cbn in H. inversion H; subst. unfold advance. destruct r'.
    cbn [BitReader.bits BitReader.pointer].
    rewrite Nat.add_0_r. repeat split; auto; lia.
  - cbn [read_steps] in H.
    read_unknown H Hb. read_unknown H Hb.
    read_unknown H Hb. read_unknown H Hb.
    apply IH in H.
    + destruct H as (-> & Hle' & Hlen & Hall).
      cbn [advance BitReader.bits BitReader.pointer] in Hle'.
      rewrite length_app in Hlen. cbn [length] in Hlen.
      rewrite !advance_advance.
      split; [f_equal; lia|]. split; [lia|]. split; [lia|exact Hall].
    + exact Hb.
    + rewrite forallb_app, Hacc. cbn [forallb andb].
      unfold step_complete. cbn [ScenarioStep.cycleTime ScenarioStep.setupTime].
      change (2 ^ Z.of_nat 5)%Z with 32%Z in *.
      change (2 ^ Z.of_nat 7)%Z with 128%Z in *.
      rewrite !in_field_intro by lia. reflexivity.
    + cbn [advance BitReader.bits BitReader.pointer]. lia.
Qed.

(** A successful decode of a stream of bits has consumed the header and
    one record per announced step, all of them present in the stream, and
    its result is complete. *)
Lemma read_scenario_inv (bits : jsstring) (d : ScenarioData.t)
  (r' : BitReader.t) :
  all_bits bits = true ->
  read_scenario (BitReader.new bits) = Value (Some d, r') ->
  complete d = true
  /\ length (ScenarioData.steps d) = announced_steps bits
  /\ 13 + 14 * length (ScenarioData.steps d) <= length bits.
Proof.
  intros Hb H. unfold read_scenario in H.
  set (r := BitReader.new bits) in *.
  assert (Hbr : all_bits (BitReader.bits r) = true) by exact Hb.
  unfold bind at 1 in H.
  destruct (BitReader.read 2 r) as [[version r1]|] eqn:E1; [|discriminate H].
  apply read_bits_inv in E1; [|lia|exact Hbr].
  destruct E1 as (Hle1 & -> & v & -> & Hv).
  destruct (negb (number_eqb (Int v) (Int 1))); [discriminate H|].
  unfold bind at 1 in H.
  destruct (BitReader.read 2 (advance 2 r)) as [[unitVal r2]|] eqn:E2;
    [|discriminate H].
  apply read_bits_inv in E2; [|lia|exact Hbr].
  destruct E2 as (Hle2 & -> & u & -> & Hu).
  destruct (number_gtb (Int u) (Int 2)) eqn:Hgt; [discriminate H|].
  unfold bind at 1 in H.
  destruct (BitReader.read 2 (advance 2 (advance 2 r))) as [[countOffset r3]|] eqn:E3;
    [|discriminate H].
  pose proof (read_inv _ _ _ _ E3) as (_ & Hoff & _).
  apply read_bits_inv in E3; [|lia|exact Hbr].
  destruct E3 as (Hle3 & -> & c & Hc & Hcr).
  read_unknown H Hbr. read_unknown H Hbr.
  unfold bind at 1 in H.
  match type of H with
  | context [read_steps ?n ?a ?rr] =>
      destruct (read_steps n a rr) as [[stepsData r6]|] eqn:E6;
      [|discriminate H]
  end.
  apply read_steps_inv in E6;
    [|exact Hbr|reflexivity
     |cbn [advance BitReader.bits BitReader.pointer] in *; lia].
  destruct E6 as (_ & Hle6 & Hlen & Hall).
  cbn [advance BitReader.bits BitReader.pointer length] in *.
  unfold ret in H. inversion H; subst d r'. clear H.
  cbn [ScenarioData.steps].
  assert (Hann : announced_steps bits = loop_count (number_add countOffset (Int MIN_STEPS))).
  { unfold announced_steps. rewrite Hoff.
    rewrite !remaining_advance. unfold remaining, r.
    cbn [BitReader.new BitReader.bits BitReader.pointer].
    change (skipn 0 bits) with bits.
    rewrite skipn_skipn. reflexivity. }
  rewrite Hann, Hc in *. cbn [number_add loop_count] in *.
  change (2 ^ Z.of_nat 2)%Z with 4%Z in *.
  change (2 ^ Z.of_nat 6)%Z with 64%Z in *.
  unfold MIN_STEPS in *.
  split; [|split; [lia|cbn [r BitReader.new BitReader.bits BitReader.pointer] in *; lia]].
  unfold complete.
  cbn [ScenarioData.timeUnit ScenarioData.steps ScenarioData.globalBatchSize].
  rewrite Hall, in_field_intro by lia.
  assert (Hunit : exists t, timeUnits_at (Int u) = Some t).
  { cbn in Hgt. apply Z.ltb_ge in Hgt.
    assert (Hcase : (u = 0 \/ u = 1 \/ u = 2)%Z) by lia.
    destruct Hcase as [-> | [-> | ->]]; eexists; reflexivity. }
  change (if (u <? 0)%Z then None
          else nth_error [Seconds; Minutes; Hours] (Z.to_nat u))
    with (timeUnits_at (Int u)).
  destruct Hunit as (t & ->).
  unfold MIN_STEPS, MAX_STEPS. rewrite Hlen.
  repeat (apply andb_true_iff; split); try reflexivity; apply Z.leb_le; lia.
Qed.
(** ** Decoding an arbitrary string *)

Lemma indexOf_from_range (c : ascii) (s : jsstring) (i : Z) :
  indexOf_from c s i <> (-1)%Z -> (0 <= i)%Z ->
  (i <= indexOf_from c s i < i + Z.of_nat (length s))%Z.
Proof.
  revert i. induction s as [|x s IH]; intros i Hne Hi.
  - cbn in Hne. congruence.
  - cbn [indexOf_from length] in *.
    destruct (Ascii.eqb x c); [lia|].
    specialize (IH (i + 1)%Z Hne ltac:(lia)). lia.
Qed.

Lemma CHARS_indexOf_segment (c : ascii) :
  CHARS_indexOf c <> (-1)%Z ->
  pad_zeros 6 (toString2 (Int (CHARS_indexOf c))) 6
  = low_bits 6 (CHARS_indexOf c).
Proof.
  intros Hne.
  pose proof (indexOf_from_range c CHARS 0 Hne ltac:(lia)) as Hr.
  fold (CHARS_indexOf c) in Hr. change (Z.of_nat (length CHARS)) with 64%Z in Hr.
  destruct (CHARS_table (Z.to_nat (CHARS_indexOf c)) ltac:(lia))
    as (_ & _ & _ & _ & Hpad).
  rewrite Z2Nat.id in Hpad by lia. exact Hpad.
Qed.

(** The transform of any string either throws or yields six bits per
    character. *)
Lemma decode_chars_inv (s acc bits : jsstring) :
  decode_chars s acc = Value bits -> all_bits acc = true ->
  all_bits bits = true /\ length bits = length acc + 6 * length s.
Proof.
  revert acc. induction s as [|c s IH]; intros acc H Hacc.
  - cbn in H. inversion H; subst. split; [exact Hacc|cbn; lia].
  - cbn [decode_chars] in H.
    destruct (Z.eqb_spec (CHARS_indexOf c) (-1)) as [|Hne]; [discriminate H|].
    rewrite (CHARS_indexOf_segment c Hne) in H.
    apply IH in H.
    + rewrite length_app, low_bits_length in H. cbn [length]. split; [tauto|lia].
    + rewrite all_bits_app, Hacc, low_bits_all_bits. reflexivity.
Qed.

Lemma base64ToBinaryString_inv (s bits : jsstring) :
  base64ToBinaryString s = Value bits ->
  all_bits bits = true /\ length bits = 6 * length s.
Proof.
  intros H. apply decode_chars_inv in H; [|reflexivity]. exact H.
Qed.

Lemma decode_chars_invalid (s acc : jsstring) (c : ascii) :
  In c s -> CHARS_indexOf c = (-1)%Z ->
  decode_chars s acc = Thrown "Invalid character".
Proof.
  revert acc. induction s as [|x s IH]; intros acc Hin Hc; [destruct Hin|].
  cbn [decode_chars].
  destruct (Z.eqb_spec (CHARS_indexOf x) (-1)) as [|Hne]; [reflexivity|].
  destruct Hin as [->|Hin]; [congruence|].
  apply IH; assumption.
Qed.

(** The result of [parseScenarioCode] in terms of its stages. *)
Lemma parse_none_of_empty (code : jsstring) :
  remove_spaces (trim code) = [] -> parseScenarioCode code = None.
Proof.
  intros H. unfold parseScenarioCode, parse_try. rewrite H. reflexivity.
Qed.

Lemma parse_of_bits (code bits : jsstring) :
  base64ToBinaryString (remove_spaces (trim code)) = Value bits ->
  parseScenarioCode code
  = match remove_spaces (trim code) with
    | [] => None
    | _ =>
        match read_scenario (BitReader.new bits) with
        | Value (data, _) => data
        | Thrown _ => None
        end
    end.
Proof.
  intros H. unfold parseScenarioCode, parse_try. rewrite H.
  destruct (remove_spaces (trim code)); [reflexivity|].
  destruct (read_scenario (BitReader.new bits)) as [[data r]|]; reflexivity.
Qed.

Lemma parse_some_inv (code : jsstring) (d : ScenarioData.t) :
  parseScenarioCode code = Some d ->
  exists bits r',
    base64ToBinaryString (remove_spaces (trim code)) = Value bits
    /\ all_bits bits = true
    /\ length bits = 6 * length (remove_spaces (trim code))
    /\ read_scenario (BitReader.new bits) = Value (Some d, r').
Proof.
  unfold parseScenarioCode, parse_try.
  destruct (remove_spaces (trim code)) as [|c s] eqn:Hclean; [discriminate|].
  destruct (base64ToBinaryString (c :: s)) as [bits|] eqn:Hbits; [|discriminate].
  destruct (read_scenario (BitReader.new bits)) as [[data r']|] eqn:Hread;
    [|discriminate].
  intros ->. exists bits, r'.
  destruct (base64ToBinaryString_inv _ _ Hbits) as [Hall Hlen].
  auto.
Qed.

(** A stream shorter than its header announces is never decoded. *)
Lemma parse_none_of_short (code bits : jsstring) :
  base64ToBinaryString (remove_spaces (trim code)) = Value bits ->
  length bits < 13 + 14 * announced_steps bits ->
  parseScenarioCode code = None.
Proof.
  intros Hbits Hshort.
  destruct (parseScenarioCode code) as [d|] eqn:Hp; [|reflexivity].
  destruct (parse_some_inv code d Hp) as (bits' & r' & Hbits' & Hall & _ & Hread).
  rewrite Hbits in Hbits'. inversion Hbits'; subst bits'.
  destruct (read_scenario_inv bits d r' Hall Hread) as (_ & Hlen & Hle).
  rewrite Hlen in Hle. lia.
Qed.

Lemma parse_none_of_version (code bits : jsstring) :
  base64ToBinaryString (remove_spaces (trim code)) = Value bits ->
  bits_value (firstn 2 bits) <> 1%Z ->
  parseScenarioCode code = None.
Proof.
  intros Hbits Hv. rewrite (parse_of_bits code bits Hbits).
  destruct (remove_spaces (trim code)); [reflexivity|].
  destruct (base64ToBinaryString_inv _ _ Hbits) as [Hall _].
  unfold read_scenario. unfold bind at 1.
  destruct (BitReader.read 2 (BitReader.new bits)) as [[version r1]|] eqn:E;
    [|reflexivity].
  destruct (read_inv _ _ _ _ E) as (Hle & Hval & _).
  change (remaining (BitReader.new bits)) with bits in Hval.
  cbn [BitReader.new BitReader.bits BitReader.pointer] in Hle.
  rewrite parseInt2_bits in Hval.
  - rewrite Hval. cbn [number_eqb].
    destruct (Z.eqb_spec (bits_value (firstn 2 bits)) 1); [contradiction|].
    reflexivity.
  - apply all_bits_firstn, Hall.
  - intros He. apply (f_equal (@length ascii)) in He.
    rewrite length_firstn in He. cbn [length] in He. lia.
Qed.

Lemma parse_none_of_unit (code bits : jsstring) :
  base64ToBinaryString (remove_spaces (trim code)) = Value bits ->
  (2 < bits_value (firstn 2 (skipn 2 bits)))%Z ->
  parseScenarioCode code = None.
Proof.
  intros Hbits Hu. rewrite (parse_of_bits code bits Hbits).
  destruct (remove_spaces (trim code)); [reflexivity|].
  destruct (base64ToBinaryString_inv _ _ Hbits) as [Hall _].
  unfold read_scenario. unfold bind at 1.
  destruct (BitReader.read 2 (BitReader.new bits)) as [[version r1]|] eqn:E1;
    [|reflexivity].
  destruct (read_inv _ _ _ _ E1) as (_ & _ & ->).
  destruct (negb (number_eqb version (Int 1))); [reflexivity|].
  unfold bind at 1.
  destruct (BitReader.read 2 (advance 2 (BitReader.new bits)))
    as [[unitVal r2]|] eqn:E2; [|reflexivity].
  destruct (read_inv _ _ _ _ E2) as (Hle & Hval & _).
  rewrite remaining_advance in Hval.
  change (remaining (BitReader.new bits)) with bits in Hval.
  cbn [advance BitReader.new BitReader.bits BitReader.pointer] in Hle.
  rewrite parseInt2_bits in Hval.
  - rewrite Hval. cbn [number_gtb].
    destruct (Z.ltb_spec 2 (bits_value (firstn 2 (skipn 2 bits)))); [|lia].
    reflexivity.
  - apply all_bits_firstn, all_bits_skipn, Hall.
  - intros He. apply (f_equal (@length ascii)) in He.
    rewrite length_firstn, length_skipn in He. cbn [length] in He. lia.
Qed.

(** ** Properties of the decoder *)

(** C3.  [parseScenarioCode] is total and uniform on failure: for every
    input string it returns either [None] or a complete configuration,
    and each failure cause (an exception of the body, an empty cleaned
    token, a character outside the alphabet, a read past the end of the
    stream, a stream shorter than its header announces, a version other
    than 1, a time-unit index above 2) gives the same [None]. *)
Theorem parse_total_uniform (code : jsstring) :
  (parseScenarioCode code = None
   \/ exists d, parseScenarioCode code = Some d /\ complete d = true)
  /\ (forall msg, parse_try code = Thrown msg -> parseScenarioCode code = None)
  /\ (remove_spaces (trim code) = [] -> parseScenarioCode code = None)
  /\ ((exists c, In c (remove_spaces (trim code))
                 /\ CHARS_indexOf c = (-1)%Z) ->
      parse_try code = Thrown "Invalid character"
      /\ parseScenarioCode code = None)
  /\ (forall bits,
        base64ToBinaryString (remove_spaces (trim code)) = Value bits ->
        ((exists msg, read_scenario (BitReader.new bits) = Thrown msg) ->
         parseScenarioCode code = None)
        /\ (length bits < 13 + 14 * announced_steps bits ->
            parseScenarioCode code = None)
        /\ (bits_value (firstn 2 bits) <> 1%Z ->
            parseScenarioCode code = None)
        /\ ((2 < bits_value (firstn 2 (skipn 2 bits)))%Z ->
            parseScenarioCode code = None)).
Proof.
  split; [|split; [|split; [|split]]].
  - destruct (parseScenarioCode code) as [d|] eqn:Hp; [right|left; reflexivity].
    exists d. split; [reflexivity|].
    destruct (parse_some_inv code d Hp) as (bits & r' & _ & Hall & _ & Hread).
    apply (read_scenario_inv bits d r' Hall Hread).
  - intros msg H. unfold parseScenarioCode. rewrite H. reflexivity.
  - apply parse_none_of_empty.
  - intros (c & Hin & Hc).
    assert (Ht : parse_try code = Thrown "Invalid character").
    { unfold parse_try.
      destruct (remove_spaces (trim code)) as [|x s] eqn:Hclean; [destruct Hin|].
      unfold base64ToBinaryString.
      rewrite (decode_chars_invalid (x :: s) [] c Hin Hc). reflexivity. }
    split; [exact Ht|]. unfold parseScenarioCode. rewrite Ht. reflexivity.
  - intros bits Hbits. split; [|split; [|split]].
    + intros (msg & Hread). rewrite (parse_of_bits code bits Hbits), Hread.
      destruct (remove_spaces (trim code)); reflexivity.
    + apply parse_none_of_short, Hbits.
    + apply parse_none_of_version, Hbits.
    + apply parse_none_of_unit, Hbits.
Qed.

Lemma parse_total_uniform_witness :
  parseScenarioCode (lit "  ") = None
  /\ parseScenarioCode (lit "QKF!Iyk") = None
  /\ parseScenarioCode (lit "QKFFIy") = None
  /\ parseScenarioCode (lit "AKFFIyk") = None
  /\ parseScenarioCode (lit "cKFFIyk") = None.
Proof.
  split; [|split; [|split; [|split]]].
  - destruct (parse_total_uniform (lit "  ")) as (_ & _ & H & _).
    apply H. reflexivity.
  - destruct (parse_total_uniform (lit "QKF!Iyk")) as (_ & _ & _ & H & _).
    apply H. exists "!"%char. split; [|reflexivity].
    vm_compute. tauto.
  - destruct (parse_total_uniform (lit "QKFFIy")) as (_ & _ & _ & _ & H).
    destruct (H (lit "010000001010000101000101001000110010") eq_refl)
      as (_ & Hs & _).
    apply Hs. vm_compute. lia.
  - destruct (parse_total_uniform (lit "AKFFIyk")) as (_ & _ & _ & _ & H).
    destruct (H (lit "000000001010000101000101001000110010100100") eq_refl)
      as (_ & _ & Hv & _).
    apply Hv. vm_compute. discriminate.
  - destruct (parse_total_uniform (lit "cKFFIyk")) as (_ & _ & _ & _ & H).
    destruct (H (lit "011100001010000101000101001000110010100100") eq_refl)
      as (_ & _ & _ & Hu).
    apply Hu. vm_compute. reflexivity.
Defined.

(** C4.  Version gate: a token whose first 2 bits, after the base-text
    transform, have a value other than 1 is rejected, whatever follows. *)
Theorem version_gate (code bits : jsstring) :
  base64ToBinaryString (remove_spaces (trim code)) = Value bits ->
  bits_value (firstn 2 bits) <> 1%Z ->
  parseScenarioCode code = None.
Proof. apply parse_none_of_version. Qed.

Lemma version_gate_witness :
  parseScenarioCode (lit "gKFFIyk") = None.
Proof.
  apply (version_gate (lit "gKFFIyk")
           (lit "100000001010000101000101001000110010100100")).
  - reflexivity.
  - vm_compute. discriminate.
Defined.

(** C9.  Whenever [parseScenarioCode] succeeds, the number of steps of
    its result lies between [MIN_STEPS] and [MAX_STEPS]: it is the 2-bit
    count field of the stream plus [MIN_STEPS]. *)
Theorem decoded_step_count (code : jsstring) (d : ScenarioData.t) :
  parseScenarioCode code = Some d ->
  (MIN_STEPS <= Z.of_nat (length (ScenarioData.steps d)) <= MAX_STEPS)%Z
  /\ exists bits offset,
       base64ToBinaryString (remove_spaces (trim code)) = Value bits
       /\ (0 <= offset < 4)%Z
       /\ offset = bits_value (firstn 2 (skipn 4 bits))
       /\ Z.of_nat (length (ScenarioData.steps d)) = (offset + MIN_STEPS)%Z.
Proof.
  intros Hp.
  destruct (parse_some_inv code d Hp) as (bits & r' & Hbits & Hall & _ & Hread).
  destruct (read_scenario_inv bits d r' Hall Hread) as (Hc & Hlen & Hle).
  set (field := firstn 2 (skipn 4 bits)).
  assert (Hfl : length field = 2).
  { unfold field. rewrite length_firstn, length_skipn. lia. }
  assert (Hfb : all_bits field = true).
  { unfold field. apply all_bits_firstn, all_bits_skipn, Hall. }
  pose proof (bits_value_range field) as Hr. rewrite Hfl in Hr.
  change (2 ^ Z.of_nat 2)%Z with 4%Z in Hr.
  assert (Hsteps : Z.of_nat (length (ScenarioData.steps d))
                   = (bits_value field + MIN_STEPS)%Z).
  { rewrite Hlen. unfold announced_steps. fold field.
    rewrite parseInt2_bits; [|exact Hfb|].
    - cbn [number_add loop_count]. unfold MIN_STEPS. lia.
    - intros He. rewrite He in Hfl. discriminate. }
  split.
  - rewrite Hsteps. unfold MIN_STEPS, MAX_STEPS. lia.
  - exists bits, (bits_value field). auto.
Qed.

Lemma decoded_step_count_witness :
  parseScenarioCode (lit "QKFFIyk") = Some example_data
  /\ (MIN_STEPS <= Z.of_nat (length (ScenarioData.steps example_data))
       <= MAX_STEPS)%Z.
Proof.
  split; [reflexivity|].
  apply (decoded_step_count (lit "QKFFIyk") example_data). reflexivity.
Defined.

(** ** Round trips *)

Lemma in_field_inv (n : number) (max : Z) :
  in_field n max = true -> exists z, n = Int z /\ (0 <= z <= max)%Z.
Proof.
  destruct n as [|z]; [discriminate|]. unfold in_field.
  rewrite andb_true_iff, !Z.leb_le. intros H. exists z. auto.
Qed.

Lemma in_field_nonneg (n : number) (max : Z) :
  in_field n max = true -> nonneg n = true.
Proof.
  intros H. destruct (in_field_inv n max H) as (z & -> & Hz).
  apply Z.leb_le. lia.
Qed.

Lemma in_field_min (n : number) (max : Z) :
  in_field n max = true -> Math_min n (Int max) = n.
Proof.
  intros H. destruct (in_field_inv n max H) as (z & -> & Hz).
  cbn. f_equal. lia.
Qed.

Lemma step_in_range_inv (s : StepParameters.t) :
  step_in_range s = true ->
  (exists b, StepParameters.batchSize s = Some (Int b) /\ (0 <= b <= 63)%Z)
  /\ (exists l, StepParameters.isBatchLocked s = Some l)
  /\ in_field (StepParameters.cycleTime s) 31 = true
  /\ in_field (StepParameters.setupTime s) 127 = true.
Proof.
  unfold step_in_range. rewrite !andb_true_iff.
  intros [[[Hb Hl] Hc] Ht].
  destruct (StepParameters.batchSize s) as [b|]; [|discriminate].
  destruct (in_field_inv b 63 Hb) as (z & -> & Hz).
  destruct (StepParameters.isBatchLocked s) as [l|]; [|discriminate].
  eauto 10.
Qed.

Lemma step_in_range_ok (s : StepParameters.t) :
  step_in_range s = true ->
  step_ok s = true /\ batch_ok s = true /\ decoded_step s = stored_step s.
Proof.
  intros H. destruct (step_in_range_inv s H) as ((b & Hb & Hbr) & _ & Hc & Ht).
  split; [|split].
  - unfold step_ok.
    rewrite (in_field_nonneg _ _ Hc), (in_field_nonneg _ _ Ht). reflexivity.
  - unfold batch_ok. rewrite Hb. apply Z.leb_le. lia.
  - unfold decoded_step, stored_step.
    rewrite (in_field_min _ _ Hc), (in_field_min _ _ Ht). reflexivity.
Qed.

Lemma configuration_in_range_inv (steps : list StepParameters.t) :
  configuration_in_range steps = true ->
  forallb step_in_range steps = true
  /\ 2 <= length steps <= 5
  /\ steps_ok steps = true
  /\ map decoded_step steps = map stored_step steps.
Proof.
  unfold configuration_in_range, MIN_STEPS, MAX_STEPS.
  rewrite !andb_true_iff, !Z.leb_le. intros [[Hall Hmin] Hmax].
  split; [exact Hall|]. split; [lia|].
  assert (Hsteps : forallb step_ok steps = true
                   /\ map decoded_step steps = map stored_step steps).
  { clear Hmin Hmax. induction steps as [|s steps IH]; [split; reflexivity|].
    cbn [forallb map] in *. apply andb_true_iff in Hall.
    destruct Hall as [Hs Hr]. destruct (IH Hr) as [IH1 IH2].
    destruct (step_in_range_ok s Hs) as (Hok & _ & Heq).
    rewrite Hok, IH1, Heq, IH2. split; reflexivity. }
  destruct Hsteps as [Hok Heq]. split; [|exact Heq].
  unfold steps_ok. rewrite Hok. cbn [andb].
  destruct steps as [|s steps]; [reflexivity|].
  cbn [forallb] in Hall. apply andb_true_iff in Hall.
  apply (step_in_range_ok s), Hall.
Qed.

(** The round trip of a configuration in range, with the batch size that
    the encoder stores: that of the first step, or 10 when it is 0. *)
Lemma decode_encode_in_range (steps : list StepParameters.t)
  (timeUnit : TimeUnit) :
  configuration_in_range steps = true ->
  decode_encode steps timeUnit
  = Some (ScenarioData.mk (Some timeUnit) (map stored_step steps)
            (global_batch steps) (Z.eqb (global_lock steps) 1)).
Proof.
  intros H.
  destruct (configuration_in_range_inv steps H) as (_ & Hlen & Hok & Heq).
  unfold decode_encode. rewrite parse_generate by (assumption || lia).
  unfold decoded. rewrite firstn_all2 by (unfold MAX_STEPS; lia).
  rewrite Heq. reflexivity.
Qed.

(** C1 does not hold as stated: a first step with batch size 0 is within
    the 6-bit width, and decodes to the global batch size 10. *)
Lemma roundtrip_zero_batch_counterexample :
  configuration_in_range zero_batch_steps = true
  /\ ~ (exists d,
          parseScenarioCode (generateScenarioCode zero_batch_steps Seconds)
          = Some d
          /\ roundtrip_preserves zero_batch_steps Seconds d).
Proof.
  split; [reflexivity|].
  intros (d & Hd & _ & _ & _ & Hbatch & _).
  vm_compute in Hd. inversion Hd; subst d.
  cbn in Hbatch. discriminate Hbatch.
Qed.

(** C1, amended.  For a configuration with between [MIN_STEPS] and
    [MAX_STEPS] steps whose fields lie within their widths and whose
    first step has a batch size of at least 1, decoding the encoded
    configuration succeeds and preserves the time unit, the step count
    and the cycle time, setup time and two locks of every step, with the
    global batch size and lock equal to those of the first step. *)
Theorem scenario_roundtrip (steps : list StepParameters.t) (timeUnit : TimeUnit) :
  configuration_in_range steps = true ->
  first_batch_positive steps = true ->
  exists d,
    parseScenarioCode (generateScenarioCode steps timeUnit) = Some d
    /\ roundtrip_preserves steps timeUnit d.
Proof.
  intros Hin Hpos.
  pose proof (decode_encode_in_range steps timeUnit Hin) as Hd.
  destruct (configuration_in_range_inv steps Hin) as (Hall & _ & _ & _).
  eexists. split; [exact Hd|].
  unfold roundtrip_preserves.
  cbn [ScenarioData.timeUnit ScenarioData.steps ScenarioData.globalBatchSize
       ScenarioData.globalBatchLocked].
  split; [reflexivity|]. split; [apply length_map|]. split; [reflexivity|].
  destruct steps as [|s steps]; [exact I|].
  cbn [forallb] in Hall. apply andb_true_iff in Hall. destruct Hall as [Hs _].
  destruct (step_in_range_inv s Hs) as ((b & Hb & Hbr) & (l & Hl) & _ & _).
  unfold global_batch, global_lock. rewrite Hb, Hl.
  cbn [first_batch_positive] in Hpos. rewrite Hb in Hpos.
  apply Z.leb_le in Hpos.
  cbn [or_default]. destruct (Z.eqb_spec b 0); [lia|]. cbn [Math_min].
  split; [do 2 f_equal; lia|].
  destruct l; reflexivity.
Qed.

Lemma scenario_roundtrip_witness :
  exists d,
    parseScenarioCode (generateScenarioCode example_steps Seconds) = Some d
    /\ roundtrip_preserves example_steps Seconds d.
Proof.
  apply (scenario_roundtrip example_steps Seconds); reflexivity.
Defined.
Lemma step_complete_inv (s : ScenarioStep.t) :
  step_complete s = true ->
  in_field (ScenarioStep.cycleTime s) 31 = true
  /\ in_field (ScenarioStep.setupTime s) 127 = true.
Proof. unfold step_complete. apply andb_true_iff. Qed.

Lemma attach_batch_steps (l : list ScenarioStep.t)
  (bs : option number) (bl : option bool) :
  forallb step_complete l = true ->
  forallb step_ok (map (attach_batch bs bl) l) = true
  /\ map decoded_step (map (attach_batch bs bl) l) = l.
Proof.
  induction l as [|s l IH]; [split; reflexivity|].
  cbn [forallb map]. rewrite andb_true_iff. intros [Hs Hl].
  destruct (IH Hl) as [IH1 IH2]. rewrite IH1, IH2.
  destruct (step_complete_inv s Hs) as [Hc Ht].
  split.
  - unfold step_ok, attach_batch.
    cbn [StepParameters.cycleTime StepParameters.setupTime].
    rewrite (in_field_nonneg _ _ Hc), (in_field_nonneg _ _ Ht). reflexivity.
  - f_equal. unfold decoded_step, attach_batch.
    cbn [StepParameters.cycleTime StepParameters.setupTime
         StepParameters.isCycleLocked StepParameters.isSetupLocked].
    rewrite (in_field_min _ _ Hc), (in_field_min _ _ Ht).
    destruct s; reflexivity.
Qed.

(** Encoding decoded steps with given batch fields, and decoding. *)
Lemma decode_encode_attach (l : list ScenarioStep.t)
  (bs : option number) (bl : option bool) (timeUnit : TimeUnit) :
  forallb step_complete l = true -> 2 <= length l <= 5 ->
  match bs with
  | Some (Int z) => (0 <= z)%Z
  | _ => True
  end ->
  decode_encode (map (attach_batch bs bl) l) timeUnit
  = Some (ScenarioData.mk (Some timeUnit) l
            (Math_min (or_default bs (Int 10)) (Int 63))
            (Z.eqb (flag_of bl) 1)).
Proof.
  intros Hl Hlen Hbs.
  destruct (attach_batch_steps l bs bl Hl) as [Hok Hdec].
  unfold decode_encode. rewrite parse_generate.
  - unfold decoded.
    rewrite firstn_all2 by (rewrite length_map; unfold MAX_STEPS; lia).
    rewrite Hdec. destruct l as [|s l]; [cbn in Hlen; lia|]. reflexivity.
  - unfold steps_ok. rewrite Hok. cbn [andb].
    destruct l as [|s l]; [reflexivity|].
    cbn [map]. unfold batch_ok, attach_batch. cbn [StepParameters.batchSize].
    destruct bs as [[|z]|]; try reflexivity. apply Z.leb_le. exact Hbs.
  - rewrite length_map. lia.
Qed.

Lemma stored_steps_complete (steps : list StepParameters.t) :
  forallb step_in_range steps = true ->
  forallb step_complete (map stored_step steps) = true.
Proof.
  induction steps as [|s steps IH]; [reflexivity|].
  cbn [forallb map]. rewrite andb_true_iff. intros [Hs Hr].
  rewrite (IH Hr). destruct (step_in_range_inv s Hs) as (_ & _ & Hc & Ht).
  unfold step_complete, stored_step.
  cbn [ScenarioStep.cycleTime ScenarioStep.setupTime].
  rewrite Hc, Ht. reflexivity.
Qed.

(** C2 does not hold as stated: the steps of a decoded scenario have no
    batch fields, so encoding them again stores the defaults, batch size
    10 and no lock, in place of the decoded global fields 20 and locked. *)
Lemma reencode_batch20_counterexample :
  configuration_in_range batch20_steps = true
  /\ ~ reencode_idempotent batch20_steps Seconds.
Proof.
  split; [reflexivity|].
  intros (d & u & Hd & Hu & Hd').
  vm_compute in Hd. inversion Hd; subst d. clear Hd.
  cbn in Hu. inversion Hu; subst u. clear Hu.
  vm_compute in Hd'. discriminate Hd'.
Qed.

(** C2, amended.  For a configuration in range, let [d] be the decoded
    encoding.  Encoding the steps of [d] as they are and decoding gives
    the time unit and the steps of [d] with the global batch size 10 and
    no global lock; encoding the steps of [d] with the global batch
    fields of [d] put on them and decoding gives [d] again. *)
Theorem reencode_decoded (steps : list StepParameters.t)
  (timeUnit : TimeUnit) :
  configuration_in_range steps = true ->
  exists d,
    decode_encode steps timeUnit = Some d
    /\ ScenarioData.timeUnit d = Some timeUnit
    /\ decode_encode (steps_as_decoded d) timeUnit
       = Some (ScenarioData.mk (ScenarioData.timeUnit d)
                 (ScenarioData.steps d) (Int 10) false)
    /\ decode_encode (steps_with_global_batch d) timeUnit = Some d.
Proof.
  intros Hin.
  destruct (configuration_in_range_inv steps Hin) as (Hall & Hlen & Hok & _).
  pose proof (stored_steps_complete steps Hall) as Hcomp.
  destruct (global_batch_nonneg steps Hok) as (b & Hb & Hbr).
  eexists. split; [apply decode_encode_in_range, Hin|].
  cbn [ScenarioData.timeUnit ScenarioData.steps]. split; [reflexivity|].
  split.
  - change (steps_as_decoded ?d)
      with (map (attach_batch None None) (ScenarioData.steps d)).
    cbn [ScenarioData.steps].
    rewrite decode_encode_attach;
      [reflexivity|exact Hcomp|rewrite length_map; lia|exact I].
  - change (steps_with_global_batch ?d)
      with (map (attach_batch (Some (ScenarioData.globalBatchSize d))
                   (Some (ScenarioData.globalBatchLocked d)))
              (ScenarioData.steps d)).
    cbn [ScenarioData.steps ScenarioData.globalBatchSize
         ScenarioData.globalBatchLocked].
    rewrite decode_encode_attach;
      [|exact Hcomp|rewrite length_map; lia|rewrite Hb; lia].
    rewrite Hb. cbn [or_default].
    destruct (Z.eqb_spec b 0); [lia|]. cbn [Math_min].
    replace (Z.min b 63) with b by lia.
    destruct (Z.eqb (global_lock steps) 1); reflexivity.
Qed.

Lemma reencode_decoded_witness :
  exists d,
    decode_encode batch20_steps Seconds = Some d
    /\ ScenarioData.timeUnit d = Some Seconds
    /\ decode_encode (steps_as_decoded d) Seconds
       = Some (ScenarioData.mk (ScenarioData.timeUnit d)
                 (ScenarioData.steps d) (Int 10) false)
    /\ decode_encode (steps_with_global_batch d) Seconds = Some d.
Proof.
  apply (reencode_decoded batch20_steps Seconds). reflexivity.
Defined.

(** C5.  Encoding clamps and never rejects: for a list of between
    [MIN_STEPS] and [MAX_STEPS] steps with non-negative integer fields the
    token decodes, a step with cycle time 99 decodes to cycle time 31, a
    step with setup time 200 to setup time 127, and a first step with
    batch size 70 to the global batch size 63; every number decodes to
    the smaller of itself and the maximum of its field. *)
Theorem clamping_on_encode (steps : list StepParameters.t)
  (timeUnit : TimeUnit) :
  steps_ok steps = true -> 2 <= length steps <= 5 ->
  exists d,
    parseScenarioCode (generateScenarioCode steps timeUnit) = Some d
    /\ length (ScenarioData.steps d) = length steps
    /\ (forall i s,
          nth_error steps i = Some s ->
          exists s',
            nth_error (ScenarioData.steps d) i = Some s'
            /\ ScenarioStep.cycleTime s'
               = Math_min (StepParameters.cycleTime s) (Int 31)
            /\ ScenarioStep.setupTime s'
               = Math_min (StepParameters.setupTime s) (Int 127)
            /\ (StepParameters.cycleTime s = Int 99 ->
                ScenarioStep.cycleTime s' = Int 31)
            /\ (StepParameters.setupTime s = Int 200 ->
                ScenarioStep.setupTime s' = Int 127))
    /\ (forall s rest,
          steps = s :: rest ->
          StepParameters.batchSize s = Some (Int 70) ->
          ScenarioData.globalBatchSize d = Int 63).
Proof.
  intros Hok Hlen. exists (decoded steps timeUnit).
  split; [apply parse_generate; [exact Hok|lia]|].
  unfold decoded. cbn [ScenarioData.steps ScenarioData.globalBatchSize].
  rewrite firstn_all2 by (unfold MAX_STEPS; lia).
  split; [apply length_map|]. split.
  - intros i s Hi. exists (decoded_step s).
    split; [apply map_nth_error, Hi|].
    unfold decoded_step. cbn [ScenarioStep.cycleTime ScenarioStep.setupTime].
    split; [reflexivity|]. split; [reflexivity|].
    split; intros ->; reflexivity.
  - intros s rest -> Hb. unfold global_batch. rewrite Hb. reflexivity.
Qed.

Lemma clamping_on_encode_witness :
  exists d,
    parseScenarioCode (generateScenarioCode clamped_steps Hours) = Some d
    /\ ScenarioData.globalBatchSize d = Int 63
    /\ map ScenarioStep.cycleTime (ScenarioData.steps d) = [Int 31; Int 3]
    /\ map ScenarioStep.setupTime (ScenarioData.steps d) = [Int 10; Int 127].
Proof.
  destruct (clamping_on_encode clamped_steps Hours eq_refl
              (conj (le_n 2) (le_S 2 4 (le_S 2 3 (le_S 2 2 (le_n 2))))))
    as (d & Hd & _ & _ & _).
  exists d. split; [exact Hd|].
  vm_compute in Hd. inversion Hd. repeat split.
Defined.

(** ** Truncated and unclamped tokens *)

Lemma concat_firstn_groups (n k : nat) (b : jsstring) :
  k <= n -> length b = 6 * n ->
  concat (firstn k (groups_of_six n b)) = firstn (6 * k) b.
Proof.
  revert k b. induction n as [|n IH]; intros k b Hk Hl.
  - replace k with 0 by lia. reflexivity.
  - destruct k as [|k]; [reflexivity|].
    cbn [groups_of_six firstn concat].
    rewrite IH by (try rewrite length_skipn; lia).
    replace (6 * S k) with (6 + 6 * k) by lia.
    rewrite <- (firstn_skipn 6 b) at 3.
    rewrite firstn_app, length_firstn.
    replace (Nat.min 6 (length b)) with 6 by lia.
    rewrite firstn_firstn.
    replace (Nat.min (6 + 6 * k) 6) with 6 by lia.
    replace (6 + 6 * k - 6) with (6 * k) by lia. reflexivity.
Qed.

Lemma Forall_firstn_groups (k : nat) (gs : list jsstring) :
  Forall is_group gs -> Forall is_group (firstn k gs).
Proof.
  intros H. revert k. induction H as [|g gs Hg _ IH]; intros [|k]; cbn;
    constructor; auto.
Qed.

(** The count field of a stream that starts with the header of the
    encoder. *)
Lemma announced_steps_header (steps : list StepParameters.t)
  (timeUnit : TimeUnit) (m : nat) (rest : jsstring) :
  6 <= m ->
  announced_steps (firstn m (scenario_bits steps timeUnit ++ rest))
  = Z.to_nat (clamped_count steps).
Proof.
  intros Hm. unfold announced_steps, scenario_bits, header_bits.
  rewrite <- !app_assoc.
  set (tail := low_bits 6 _ ++ _).
  assert (Hfield : firstn 2 (skipn 4
                     (firstn m
                        (low_bits 2 1 ++ low_bits 2 (unitMap timeUnit)
                         ++ low_bits 2 (clamped_count steps - MIN_STEPS)
                         ++ tail)))
                   = low_bits 2 (clamped_count steps - MIN_STEPS)).
  { generalize (low_bits_length 2 1), (low_bits_length 2 (unitMap timeUnit)),
      (low_bits_length 2 (clamped_count steps - MIN_STEPS)).
    generalize (low_bits 2 1), (low_bits 2 (unitMap timeUnit)),
      (low_bits 2 (clamped_count steps - MIN_STEPS)).
    intros a b c Ha Hb Hc.
    destruct a as [|a1 [|a2 [|]]]; try discriminate Ha.
    destruct b as [|b1 [|b2 [|]]]; try discriminate Hb.
    destruct c as [|c1 [|c2 [|]]]; try discriminate Hc.
    do 6 (destruct m as [|m]; [lia|]). reflexivity. }
  rewrite Hfield.
  pose proof (clamped_count_range steps) as Hc.
  unfold MIN_STEPS, MAX_STEPS in *.
  rewrite parseInt2_bits.
  - rewrite low_bits_value. change (2 ^ Z.of_nat 2)%Z with 4%Z.
    rewrite Z.mod_small by lia. cbn [number_add loop_count]. f_equal. lia.
  - apply low_bits_all_bits.
  - intros He. apply (f_equal (@length ascii)) in He.
    rewrite low_bits_length in He. discriminate He.
Qed.

Lemma ceiling_six (x : nat) :
  x <= 6 * ((x + 5) / 6) < x + 6.
Proof.
  pose proof (Nat.div_mod_eq (x + 5) 6) as H.
  pose proof (Nat.mod_upper_bound (x + 5) 6 ltac:(lia)). lia.
Qed.

(** The token of the encoder: its symbols, its length, and the stream it
    decodes to. *)
Lemma token_shape (steps : list StepParameters.t) (timeUnit : TimeUnit) :
  steps_ok steps = true ->
  let padded := scenario_bits steps timeUnit
                ++ zero_padding (scenario_bits steps timeUnit) in
  let n := minimum_length (length steps) in
  length padded = 6 * n
  /\ Forall is_group (groups_of_six n padded)
  /\ generateScenarioCode steps timeUnit
     = map symbol_of (groups_of_six n padded)
  /\ length (generateScenarioCode steps timeUnit) = n.
Proof.
  intros Hok padded n.
  rewrite (generateScenarioCode_bits steps timeUnit Hok).
  destruct (binaryStringToBase64_groups _ (scenario_bits_all_bits steps timeUnit))
    as (n' & Hn' & Hgs & Htok).
  fold padded in Hn', Hgs, Htok.
  assert (Hnn : n' = n).
  { destruct (zero_padding_length (scenario_bits steps timeUnit)) as [Hlt _].
    pose proof (scenario_bits_length steps timeUnit) as Hl.
    unfold padded in Hn'. rewrite length_app, Hl in Hn'.
    unfold n, minimum_length.
    pose proof (ceiling_six (13 + length steps * 14)) as Hc.
    assert (H6 : 6 * n' < 6 * ((13 + length steps * 14 + 5) / 6) + 6) by lia.
    assert (H6' : 6 * ((13 + length steps * 14 + 5) / 6) < 6 * n' + 6) by lia.
    lia. }
  subst n'. split; [exact Hn'|]. split; [exact Hgs|]. split; [exact Htok|].
  rewrite Htok, length_map.
  clear -Hn'. revert Hn'. generalize padded. generalize n.
  intros k. induction k as [|k IH]; intros b Hb; [reflexivity|].
  cbn [groups_of_six length]. rewrite IH; [reflexivity|].
  rewrite length_skipn. lia.
Qed.

(** C6.  The token of a configuration with between [MIN_STEPS] and
    [MAX_STEPS] steps has exactly the minimum length
    ceiling((13 + stepCount * 14) / 6), and each of its prefixes with
    fewer characters is rejected by [parseScenarioCode]. *)
Theorem truncated_token_rejected (steps : list StepParameters.t)
  (timeUnit : TimeUnit) (k : nat) :
  steps_ok steps = true -> 2 <= length steps <= 5 ->
  k < minimum_length (length steps) ->
  length (generateScenarioCode steps timeUnit)
  = minimum_length (length steps)
  /\ parseScenarioCode (firstn k (generateScenarioCode steps timeUnit))
     = None.
Proof.
  intros Hok Hlen Hk.
  destruct (token_shape steps timeUnit Hok) as (Hpad & Hgs & Htok & Hn).
  split; [exact Hn|].
  set (bits := scenario_bits steps timeUnit) in *.
  set (n := minimum_length (length steps)) in *.
  rewrite Htok, firstn_map.
  pose proof (Forall_firstn_groups k _ Hgs) as Hgk.
  destruct k as [|k]; [reflexivity|].
  apply parse_none_of_short
    with (bits := firstn (6 * S k) (bits ++ zero_padding bits)).
  - rewrite clean_no_spaces by (apply symbols_no_spaces, Hgk).
    unfold base64ToBinaryString.
    rewrite decode_chars_symbols by exact Hgk.
    rewrite concat_firstn_groups by (try exact Hpad; lia).
    reflexivity.
  - unfold bits. rewrite announced_steps_header by lia.
    rewrite length_firstn. fold bits.
    unfold clamped_count, MIN_STEPS, MAX_STEPS.
    replace (Z.to_nat (Z.min (Z.max (Z.of_nat (length steps)) 2) 5))
      with (length steps) by lia.
    pose proof (ceiling_six (13 + length steps * 14)) as Hc.
    fold (minimum_length (length steps)) in Hc. fold n in Hc. lia.
Qed.

Lemma truncated_token_rejected_witness :
  length (generateScenarioCode example_steps Seconds) = 7
  /\ parseScenarioCode (firstn 6 (generateScenarioCode example_steps Seconds))
     = None.
Proof.
  apply (truncated_token_rejected example_steps Seconds 6).
  - reflexivity.
  - cbn. lia.
  - vm_compute. lia.
Defined.

(** C10.  The encoder writes the 13-bit header, whose count field is the
    clamped count, and one 14-bit record for every step of the list.  The
    token of a list of fewer than [MIN_STEPS] steps is rejected by the
    decoder, and the token of a list of more than [MAX_STEPS] steps
    decodes to exactly the first [MAX_STEPS] steps. *)
Theorem unclamped_records (steps : list StepParameters.t)
  (timeUnit : TimeUnit) :
  steps_ok steps = true ->
  (generateScenarioCode steps timeUnit
   = binaryStringToBase64
       (header_bits steps timeUnit ++ concat (map step_bits steps))
   /\ length (header_bits steps timeUnit) = 13
   /\ Forall (fun record => length record = 14) (map step_bits steps))
  /\ (length steps < Z.to_nat MIN_STEPS ->
      parseScenarioCode (generateScenarioCode steps timeUnit) = None)
  /\ (Z.to_nat MAX_STEPS < length steps ->
      exists d,
        parseScenarioCode (generateScenarioCode steps timeUnit) = Some d
        /\ ScenarioData.steps d
           = map decoded_step (firstn (Z.to_nat MAX_STEPS) steps)
        /\ length (ScenarioData.steps d) = Z.to_nat MAX_STEPS).
Proof.
  intros Hok. split; [|split].
  - split; [apply (generateScenarioCode_bits steps timeUnit Hok)|].
    split.
    + unfold header_bits. rewrite !length_app, !low_bits_length. reflexivity.
    + apply Forall_map, Forall_forall. intros s _.
      unfold step_bits. rewrite !length_app, !low_bits_length. reflexivity.
  - change (Z.to_nat MIN_STEPS) with 2. intros Hlen.
    destruct (token_shape steps timeUnit Hok) as (Hpad & Hgs & Htok & Hn).
    set (bits := scenario_bits steps timeUnit) in *.
    apply parse_none_of_short with (bits := bits ++ zero_padding bits).
    + rewrite clean_no_spaces
        by (rewrite Htok; apply symbols_no_spaces, Hgs).
      rewrite (generateScenarioCode_bits steps timeUnit Hok).
      apply base64_roundtrip, scenario_bits_all_bits.
    + destruct (zero_padding_length bits) as [Hz _].
      pose proof (scenario_bits_length steps timeUnit) as Hl. fold bits in Hl.
      pose proof (announced_steps_header steps timeUnit
                    (length (bits ++ zero_padding bits)) (zero_padding bits))
        as Hann.
      fold bits in Hann. rewrite firstn_all in Hann.
      rewrite Hann by (rewrite length_app; lia).
      rewrite length_app, Hl.
      unfold clamped_count, MIN_STEPS, MAX_STEPS.
      replace (Z.to_nat (Z.min (Z.max (Z.of_nat (length steps)) 2) 5))
        with 2 by lia.
      lia.
  - change (Z.to_nat MAX_STEPS) with 5. intros Hlen.
    exists (decoded steps timeUnit).
    split; [apply parse_generate; [exact Hok|lia]|].
    unfold decoded. cbn [ScenarioData.steps].
    change (Z.to_nat MAX_STEPS) with 5.
    split; [reflexivity|].
    rewrite length_map, length_firstn. lia.
Qed.

Lemma unclamped_records_witness :
  parseScenarioCode (generateScenarioCode one_step Minutes) = None
  /\ exists d,
       parseScenarioCode (generateScenarioCode six_steps Minutes) = Some d
       /\ map ScenarioStep.cycleTime (ScenarioData.steps d)
          = [Int 1; Int 2; Int 3; Int 4; Int 5].
Proof.
  split.
  - destruct (unclamped_records one_step Minutes eq_refl) as (_ & H & _).
    apply H. vm_compute. lia.
  - destruct (unclamped_records six_steps Minutes eq_refl) as (_ & _ & H).
    destruct H as (d & Hd & Hsteps & _); [vm_compute; lia|].
    exists d. split; [exact Hd|]. rewrite Hsteps. reflexivity.
Defined.

(** * Further properties of the codec and of its callers *)

(** ** The bit stream *)

(** X1.  Reading a field back: after [write (Int v) width] on a writer,
    a reader placed where the writer stood reads the integer
    [v mod 2^width] and stops at the end of the field, whatever follows
    in the stream. *)
Theorem write_read_field (v : Z) (width : nat) (w : BitWriter.t)
  (rest : jsstring) :
  (0 <= v)%Z -> 0 < width ->
  let stream := BitWriter.getData (BitWriter.write (Int v) width w) ++ rest in
  let start := length (BitWriter.getData w) in
  BitReader.read width (BitReader.mk stream start)
  = Value (Int (v mod 2 ^ Z.of_nat width),
           BitReader.mk stream (start + width)).
Proof.
  intros Hv Hw stream start.
  assert (Hr : remaining (BitReader.mk stream start)
               = low_bits width v ++ rest).
  { unfold remaining, stream, start.
    cbn [BitReader.bits BitReader.pointer].
    rewrite write_int by assumption.
    unfold BitWriter.getData. cbn [BitWriter.bits].
    rewrite <- app_assoc, skipn_app, skipn_all, Nat.sub_diag.
    reflexivity. }
  destruct (read_field width v rest _ Hw Hr) as [Hread _].
  exact Hread.
Qed.

Lemma write_read_field_witness :
  BitReader.read 5
    (BitReader.mk (lit "0100011" ++ lit "111") 2)
  = Value (Int 3, BitReader.mk (lit "0100011" ++ lit "111") 7).
Proof.
  exact (write_read_field 99 5 (BitWriter.mk (lit "01")) (lit "111")
           ltac:(lia) ltac:(lia)).
Defined.

(** X2.  [write] appends exactly [width] characters for every number,
    integer or not, when [width] is positive; with [width] 0 it appends
    the whole binary rendering, since [slice(-0)] keeps the string. *)
Theorem write_length (value : number) (width : nat) (w : BitWriter.t) :
  (0 < width ->
   length (BitWriter.getData (BitWriter.write value width w))
   = length (BitWriter.getData w) + width)
  /\ (width = 0 ->
      BitWriter.getData (BitWriter.write value width w)
      = BitWriter.getData w ++ toString2 value).
Proof.
  pose proof (toString2_nonempty value) as Hne.
  unfold BitWriter.write, BitWriter.getData. cbn [BitWriter.bits].
  split.
  - intros Hw. rewrite length_app. f_equal.
    destruct (Nat.ltb_spec width (length (toString2 value))) as [Hlt|Hge].
    + unfold slice_last. destruct width as [|k]; [lia|].
      rewrite pad_zeros_enough by (rewrite length_skipn; lia).
      rewrite length_app, repeat_length, length_skipn. lia.
    + rewrite pad_zeros_enough by lia.
      rewrite length_app, repeat_length. lia.
  - intros ->.
    destruct (Nat.ltb_spec 0 (length (toString2 value))); [|lia].
    reflexivity.
Qed.

Lemma write_length_witness :
  length (BitWriter.getData (BitWriter.write (Int (-5)) 7 BitWriter.new)) = 7
  /\ BitWriter.getData (BitWriter.write (Int 5) 0 BitWriter.new) = lit "101".
Proof.
  split.
  - exact (proj1 (write_length (Int (-5)) 7 BitWriter.new) ltac:(lia)).
  - exact (proj2 (write_length (Int 5) 0 BitWriter.new) eq_refl).
Defined.

(** X3.  [hasMore] tells whether a read can succeed: when it is false
    every read of a positive width throws, and when it is true a read of
    one bit succeeds; a successful read keeps the stream and moves the
    cursor by the width, never past the end. *)
Theorem hasMore_read (r : BitReader.t) :
  (BitReader.hasMore r = false ->
   forall width, 0 < width ->
     BitReader.read width r = Thrown "Unexpected end of data")
  /\ (BitReader.hasMore r = true ->
      exists v, BitReader.read 1 r = Value (v, advance 1 r))
  /\ (forall width v r',
        BitReader.read width r = Value (v, r') ->
        BitReader.bits r' = BitReader.bits r
        /\ BitReader.pointer r' = BitReader.pointer r + width
        /\ BitReader.pointer r' <= length (BitReader.bits r')).
Proof.
  unfold BitReader.hasMore. split; [|split].
  - intros H width Hw. apply Nat.ltb_ge in H.
    apply read_short. rewrite remaining_length. lia.
  - intros H. apply Nat.ltb_lt in H. eexists.
    apply read_enough; [lia|]. rewrite remaining_length. lia.
  - intros width v r' H. destruct (read_inv _ _ _ _ H) as (Hle & _ & ->).
    cbn [advance BitReader.bits BitReader.pointer]. auto.
Qed.

Lemma hasMore_read_witness :
  BitReader.read 3 (BitReader.mk (lit "0101") 4)
  = Thrown "Unexpected end of data"
  /\ exists v, BitReader.read 1 (BitReader.mk (lit "0101") 3)
               = Value (v, BitReader.mk (lit "0101") 4).
Proof.
  split.
  - apply (proj1 (hasMore_read (BitReader.mk (lit "0101") 4)));
      [reflexivity|lia].
  - apply (proj1 (proj2 (hasMore_read (BitReader.mk (lit "0101") 3)))).
    reflexivity.
Defined.

(** ** The base64url transform, from text to bits *)

Lemma in_alphabet_inv (c : ascii) :
  in_alphabet c = true ->
  CHARS_indexOf c <> (-1)%Z /\ (0 <= CHARS_indexOf c < 64)%Z.
Proof.
  unfold in_alphabet. rewrite negb_true_iff, Z.eqb_neq. intros Hne.
  split; [exact Hne|].
  pose proof (indexOf_from_range c CHARS 0 Hne ltac:(lia)) as Hr.
  fold (CHARS_indexOf c) in Hr.
  change (Z.of_nat (length CHARS)) with 64%Z in Hr. lia.
Qed.

Lemma decode_chars_alphabet (s acc : jsstring) :
  forallb in_alphabet s = true ->
  decode_chars s acc = Value (acc ++ concat (map symbol_bits s)).
Proof.
  revert acc. induction s as [|c s IH]; intros acc Hs.
  - cbn. rewrite app_nil_r. reflexivity.
  - cbn [forallb] in Hs. apply andb_true_iff in Hs. destruct Hs as [Hc Hs].
    destruct (in_alphabet_inv c Hc) as [Hne _].
    cbn [decode_chars map concat].
    destruct (Z.eqb_spec (CHARS_indexOf c) (-1)); [contradiction|].
    rewrite (CHARS_indexOf_segment c Hne), IH by exact Hs.
    unfold symbol_bits. rewrite <- app_assoc. reflexivity.
Qed.

Lemma not_alphabet_inv (s : jsstring) :
  forallb in_alphabet s = false ->
  exists c, In c s /\ CHARS_indexOf c = (-1)%Z.
Proof.
  induction s as [|x s IH]; [discriminate|].
  cbn [forallb]. rewrite andb_false_iff. intros [Hx|Hs].
  - exists x. split; [left; reflexivity|].
    unfold in_alphabet in Hx. apply negb_false_iff, Z.eqb_eq in Hx. exact Hx.
  - destruct (IH Hs) as (c & Hin & Hc). exists c. split; [right|]; assumption.
Qed.

Lemma symbol_bits_group (c : ascii) : is_group (symbol_bits c).
Proof.
  split; [apply low_bits_all_bits|apply low_bits_length].
Qed.

Lemma concat_symbol_bits (s : jsstring) :
  all_bits (concat (map symbol_bits s)) = true
  /\ length (concat (map symbol_bits s)) = 6 * length s.
Proof.
  induction s as [|c s [IH1 IH2]]; [split; reflexivity|].
  cbn [map concat length]. rewrite all_bits_app, length_app, IH1, IH2.
  destruct (symbol_bits_group c) as [-> ->]. split; [reflexivity|lia].
Qed.

(** X4.  [base64ToBinaryString] succeeds exactly on the strings over the
    alphabet: for such a string it returns six bits per character, the
    6-bit rendering of each character's index in order, and for any other
    string it throws "Invalid character". *)
Theorem base64ToBinaryString_alphabet (s : jsstring) :
  (forallb in_alphabet s = true ->
   base64ToBinaryString s = Value (concat (map symbol_bits s))
   /\ all_bits (concat (map symbol_bits s)) = true
   /\ length (concat (map symbol_bits s)) = 6 * length s)
  /\ (forallb in_alphabet s = false ->
      base64ToBinaryString s = Thrown "Invalid character").
Proof.
  split.
  - intros Hs. split; [|apply concat_symbol_bits].
    unfold base64ToBinaryString. rewrite decode_chars_alphabet by exact Hs.
    reflexivity.
  - intros Hs. destruct (not_alphabet_inv s Hs) as (c & Hin & Hc).
    apply (decode_chars_invalid s [] c Hin Hc).
Qed.

Lemma base64ToBinaryString_alphabet_witness :
  base64ToBinaryString (lit "Q_") = Value (lit "010000111111")
  /\ base64ToBinaryString (lit "Q=") = Thrown "Invalid character".
Proof.
  split.
  - apply (proj1 (base64ToBinaryString_alphabet (lit "Q_"))). reflexivity.
  - apply (proj2 (base64ToBinaryString_alphabet (lit "Q="))). reflexivity.
Defined.

Lemma indexOf_from_nth (c : ascii) (s : jsstring) (i : Z) :
  indexOf_from c s i <> (-1)%Z -> (0 <= i)%Z ->
  nth_error s (Z.to_nat (indexOf_from c s i - i)) = Some c.
Proof.
  revert i. induction s as [|x s IH]; intros i Hne Hi.
  - cbn in Hne. congruence.
  - cbn [indexOf_from] in *. destruct (Ascii.eqb_spec x c) as [->|Hx].
    + rewrite Z.sub_diag. reflexivity.
    + pose proof (indexOf_from_range c s (i + 1) Hne ltac:(lia)) as Hr.
      specialize (IH (i + 1)%Z Hne ltac:(lia)).
      replace (Z.to_nat (indexOf_from c s (i + 1) - i))
        with (S (Z.to_nat (indexOf_from c s (i + 1) - (i + 1)))) by lia.
      exact IH.
Qed.

Lemma symbol_of_symbol_bits (c : ascii) :
  in_alphabet c = true -> symbol_of (symbol_bits c) = c.
Proof.
  intros Hc. destruct (in_alphabet_inv c Hc) as [Hne Hr].
  unfold symbol_of, symbol_bits. rewrite low_bits_value.
  change (2 ^ Z.of_nat 6)%Z with 64%Z. rewrite Z.mod_small by exact Hr.
  pose proof (indexOf_from_nth c CHARS 0 Hne ltac:(lia)) as Hn.
  fold (CHARS_indexOf c) in Hn. rewrite Z.sub_0_r in Hn.
  apply nth_error_nth. exact Hn.
Qed.

Lemma groups_of_symbol_bits (s : jsstring) (rest : jsstring) :
  groups_of_six (length s) (concat (map symbol_bits s) ++ rest)
  = map symbol_bits s.
Proof.
  induction s as [|c s IH]; [reflexivity|].
  cbn [length groups_of_six map concat]. rewrite <- app_assoc.
  destruct (symbol_bits_group c) as [_ Hl].
  rewrite firstn_app, skipn_app, Hl, Nat.sub_diag.
  rewrite firstn_all2, skipn_all2 by lia.
  cbn [firstn skipn app]. rewrite app_nil_r, IH. reflexivity.
Qed.

(** X5.  Encoding what was decoded gives the text back: whenever
    [base64ToBinaryString s] returns bits, [binaryStringToBase64] of
    those bits is [s]; no padding is added. *)
Theorem base64_decode_encode (s bits : jsstring) :
  base64ToBinaryString s = Value bits ->
  binaryStringToBase64 bits = s /\ zero_padding bits = [].
Proof.
  intros H.
  destruct (forallb in_alphabet s) eqn:Hs.
  - destruct (base64ToBinaryString_alphabet s) as [Hok _].
    destruct (Hok Hs) as (Hv & Hall & Hlen).
    rewrite Hv in H. inversion H; subst bits. clear H.
    assert (Hpad : zero_padding (concat (map symbol_bits s)) = []).
    { unfold zero_padding. rewrite Hlen, Nat.mul_comm, Nat.Div0.mod_mul.
      reflexivity. }
    split; [|exact Hpad].
    destruct (binaryStringToBase64_groups _ Hall) as (n & Hn & _ & ->).
    rewrite Hpad, app_nil_r in Hn |- *.
    assert (n = length s) by lia. subst n.
    rewrite <- (app_nil_r (concat (map symbol_bits s))).
    rewrite groups_of_symbol_bits, map_map.
    clear -Hs. induction s as [|c s IH]; [reflexivity|].
    cbn [forallb map] in *. apply andb_true_iff in Hs. destruct Hs as [Hc Hs].
    rewrite (symbol_of_symbol_bits c Hc), IH by exact Hs. reflexivity.
  - destruct (base64ToBinaryString_alphabet s) as [_ Hbad].
    rewrite (Hbad Hs) in H. discriminate H.
Qed.

Lemma base64_decode_encode_witness :
  binaryStringToBase64 (lit "010000111111") = lit "Q_".
Proof.
  exact (proj1 (base64_decode_encode (lit "Q_") (lit "010000111111") eq_refl)).
Defined.

(** X6.  For a string of bits, [binaryStringToBase64] returns
    ceiling(length / 6) characters, all of them characters of the
    alphabet and none of them white space. *)
Theorem binaryStringToBase64_output (b : jsstring) :
  all_bits b = true ->
  length (binaryStringToBase64 b) = (length b + 5) / 6
  /\ forallb in_alphabet (binaryStringToBase64 b) = true
  /\ no_spaces (binaryStringToBase64 b) = true.
Proof.
  intros Hb.
  destruct (binaryStringToBase64_groups b Hb) as (n & Hn & Hgs & ->).
  destruct (zero_padding_length b) as [Hlt _].
  rewrite length_app in Hn.
  split; [|split].
  - rewrite length_map.
    assert (Hlen : length (groups_of_six n (b ++ zero_padding b)) = n).
    { generalize (b ++ zero_padding b). clear.
      induction n as [|n IH]; intros l; [reflexivity|].
      cbn [groups_of_six length]. rewrite IH. reflexivity. }
    rewrite Hlen.
    pose proof (ceiling_six (length b)) as Hc. lia.
  - clear Hn. induction Hgs as [|g gs Hg _ IH]; [reflexivity|].
    cbn [map forallb]. rewrite IH, andb_true_r.
    destruct (group_symbol g Hg) as (_ & Hidx & _).
    destruct (group_value g Hg) as (_ & Hr & _).
    unfold in_alphabet. rewrite Hidx.
    apply negb_true_iff, Z.eqb_neq. lia.
  - apply symbols_no_spaces, Hgs.
Qed.

Lemma binaryStringToBase64_output_witness :
  length (binaryStringToBase64 (lit "0100001")) = 2.
Proof.
  exact (proj1 (binaryStringToBase64_output (lit "0100001") eq_refl)).
Defined.

(** ** The decoder on arbitrary text *)

Lemma remove_spaces_app (a b : jsstring) :
  remove_spaces (a ++ b) = remove_spaces a ++ remove_spaces b.
Proof. apply filter_app. Qed.

Lemma remove_spaces_drop (s : jsstring) :
  remove_spaces (drop_spaces s) = remove_spaces s.
Proof.
  induction s as [|c s IH]; [reflexivity|].
  cbn [drop_spaces]. destruct (is_space c) eqn:Hc; [|reflexivity].
  rewrite IH. unfold remove_spaces. cbn [filter]. rewrite Hc. reflexivity.
Qed.

Lemma remove_spaces_rev (s : jsstring) :
  remove_spaces (rev s) = rev (remove_spaces s).
Proof.
  induction s as [|c s IH]; [reflexivity|].
  cbn [rev]. rewrite remove_spaces_app, IH.
  unfold remove_spaces. cbn [filter].
  destruct (negb (is_space c)); cbn [rev app]; [reflexivity|].
  rewrite app_nil_r. reflexivity.
Qed.

Lemma remove_spaces_trim (s : jsstring) :
  remove_spaces (trim s) = remove_spaces s.
Proof.
  unfold trim.
  rewrite remove_spaces_rev, remove_spaces_drop, remove_spaces_rev,
    rev_involutive.
  apply remove_spaces_drop.
Qed.

Lemma remove_spaces_idem (s : jsstring) :
  remove_spaces (remove_spaces s) = remove_spaces s.
Proof.
  unfold remove_spaces. induction s as [|c s IH]; [reflexivity|].
  cbn [filter]. destruct (negb (is_space c)) eqn:Hc; [|exact IH].
  cbn [filter]. rewrite Hc, IH. reflexivity.
Qed.

Lemma remove_spaces_spaces (ws : jsstring) :
  forallb is_space ws = true -> remove_spaces ws = [].
Proof.
  induction ws as [|c ws IH]; [reflexivity|].
  cbn [forallb]. rewrite andb_true_iff. intros [Hc Hws].
  unfold remove_spaces. cbn [filter]. rewrite Hc. apply IH, Hws.
Qed.

(** The decoder sees its argument only through the cleaned string. *)
Lemma parse_same_clean (a b : jsstring) :
  remove_spaces a = remove_spaces b ->
  parseScenarioCode a = parseScenarioCode b.
Proof.
  intros H. unfold parseScenarioCode, parse_try.
  rewrite !remove_spaces_trim, H. reflexivity.
Qed.

(** X7.  White space is ignored wherever it stands: the result of
    [parseScenarioCode] is that of the string without its white space,
    and inserting white space between any two parts of a string does not
    change the result. *)
Theorem parse_ignores_spaces (code : jsstring) :
  parseScenarioCode code = parseScenarioCode (remove_spaces code)
  /\ forall a ws b,
       code = a ++ ws ++ b -> forallb is_space ws = true ->
       parseScenarioCode code = parseScenarioCode (a ++ b).
Proof.
  split.
  - apply parse_same_clean. symmetry. apply remove_spaces_idem.
  - intros a ws b -> Hws. apply parse_same_clean.
    rewrite !remove_spaces_app, (remove_spaces_spaces ws Hws). reflexivity.
Qed.

Lemma parse_ignores_spaces_witness :
  parseScenarioCode (lit "QKF FIyk") = parseScenarioCode (lit "QKFFIyk").
Proof.
  exact (proj2 (parse_ignores_spaces (lit "QKF FIyk"))
           (lit "QKF") (lit " ") (lit "FIyk") eq_refl eq_refl).
Defined.

(** Reading does not depend on what follows the bits that are read. *)
Lemma stable_read (width : nat) : stable (BitReader.read width).
Proof.
  intros more r v r' H.
  destruct (read_inv _ _ _ _ H) as (Hle & -> & ->).
  unfold BitReader.read, extend.
  cbn [BitReader.bits BitReader.pointer]. rewrite length_app.
  destruct (Nat.ltb_spec (length (BitReader.bits r) + length more)
              (BitReader.pointer r + width)); [lia|].
  rewrite substring_chunk. unfold remaining, advance.
  cbn [BitReader.bits BitReader.pointer].
  rewrite skipn_app, firstn_app, length_skipn.
  replace (width - (length (BitReader.bits r) - BitReader.pointer r))
    with 0 by lia.
  cbn [firstn]. rewrite app_nil_r. reflexivity.
Qed.

Lemma stable_ret {A} (a : A) : stable (ret a).
Proof.
  intros more r x r' H. unfold ret in *. inversion H. reflexivity.
Qed.

Lemma stable_bind {A B} (m : Rd A) (k : A -> Rd B) :
  stable m -> (forall a, stable (k a)) -> stable (bind m k).
Proof.
  intros Hm Hk more r b r' H. unfold bind in *.
  destruct (m r) as [[a r1]|] eqn:E; [|discriminate H].
  rewrite (Hm more r a r1 E). apply Hk, H.
Qed.

Lemma stable_read_steps (n : nat) (acc : list ScenarioStep.t) :
  stable (read_steps n acc).
Proof.
  revert acc. induction n as [|n IH]; intros acc; cbn [read_steps].
  - apply stable_ret.
  - repeat (apply stable_bind; [apply stable_read|intros ?]). apply IH.
Qed.

Lemma stable_read_scenario : stable read_scenario.
Proof.
  unfold read_scenario.
  apply stable_bind; [apply stable_read|intros version].
  destruct (negb (number_eqb version (Int 1))); [apply stable_ret|].
  apply stable_bind; [apply stable_read|intros unitVal].
  destruct (number_gtb unitVal (Int 2)); [apply stable_ret|].
  repeat (apply stable_bind; [apply stable_read|intros ?]).
  apply stable_bind; [apply stable_read_steps|intros ?].
  apply stable_ret.
Qed.

Lemma decode_chars_app (a b acc : jsstring) :
  decode_chars (a ++ b) acc
  = match decode_chars a acc with
    | Value bits => decode_chars b bits
    | Thrown e => Thrown e
    end.
Proof.
  revert acc. induction a as [|c a IH]; intros acc; [reflexivity|].
  cbn [app decode_chars].
  destruct (CHARS_indexOf c =? -1)%Z; [reflexivity|]. apply IH.
Qed.

(** X8.  Nothing after a complete token is looked at: when a string is
    decoded to a scenario, the string followed by any further characters
    of the alphabet (and white space) is decoded to the same scenario. *)
Theorem parse_ignores_trailing (code extra : jsstring)
  (d : ScenarioData.t) :
  parseScenarioCode code = Some d ->
  forallb in_alphabet (remove_spaces extra) = true ->
  parseScenarioCode (code ++ extra) = Some d.
Proof.
  intros Hp Hextra.
  destruct (parse_some_inv code d Hp) as (bits & r' & Hbits & _ & _ & Hread).
  rewrite remove_spaces_trim in Hbits.
  unfold parseScenarioCode, parse_try.
  rewrite remove_spaces_trim, remove_spaces_app.
  assert (Hne : remove_spaces code <> []).
  { intros He. unfold parseScenarioCode, parse_try in Hp.
    rewrite remove_spaces_trim, He in Hp. discriminate Hp. }
  destruct (remove_spaces code) as [|c s] eqn:Hclean; [congruence|].
  change ((c :: s) ++ remove_spaces extra)
    with (c :: (s ++ remove_spaces extra)).
  change (c :: (s ++ remove_spaces extra))
    with ((c :: s) ++ remove_spaces extra) at 2.
  unfold base64ToBinaryString in *.
  rewrite decode_chars_app, Hbits.
  rewrite (decode_chars_alphabet _ bits Hextra).
  pose proof (stable_read_scenario
                (concat (map symbol_bits (remove_spaces extra)))
                (BitReader.new bits) (Some d) r' Hread) as Hext.
  change (extend ?m (BitReader.new bits)) with (BitReader.new (bits ++ m)) in Hext.
  rewrite Hext. reflexivity.
Qed.

Lemma parse_ignores_trailing_witness :
  parseScenarioCode (lit "QKFFIyk" ++ lit "-anything_else") = Some example_data.
Proof.
  apply (parse_ignores_trailing (lit "QKFFIyk") (lit "-anything_else")
           example_data); reflexivity.
Defined.

Lemma accepted_length (code : jsstring) (d : ScenarioData.t) :
  parseScenarioCode code = Some d ->
  minimum_length (length (ScenarioData.steps d))
  <= length (remove_spaces (trim code))
  /\ 7 <= length (remove_spaces (trim code)).
Proof.
  intros Hp.
  destruct (parse_some_inv code d Hp) as (bits & r' & _ & Hall & Hlen & Hread).
  destruct (read_scenario_inv bits d r' Hall Hread) as (Hc & _ & Hle).
  unfold complete, MIN_STEPS in Hc. rewrite !andb_true_iff in Hc.
  destruct Hc as [[[[_ Hmin] _] _] _]. apply Z.leb_le in Hmin.
  rewrite Hlen in Hle.
  set (n := length (ScenarioData.steps d)) in *.
  set (L := length (remove_spaces (trim code))) in *.
  unfold minimum_length.
  pose proof (ceiling_six (13 + n * 14)) as Hceil.
  assert (Hn : 2 <= n) by lia.
  set (q := (13 + n * 14 + 5) / 6) in *.
  split; lia.
Qed.

(** X9.  Every accepted token is long enough for the steps it decodes
    to: its cleaned text has at least ceiling((13 + 14 * steps) / 6)
    characters, so at least 7. *)
Theorem accepted_token_length (code : jsstring) (d : ScenarioData.t) :
  parseScenarioCode code = Some d ->
  minimum_length (length (ScenarioData.steps d))
  <= length (remove_spaces (trim code))
  /\ 7 <= length (remove_spaces (trim code)).
Proof. apply accepted_length. Qed.

Lemma accepted_token_length_witness :
  minimum_length 2 <= length (remove_spaces (trim (lit " QKFFIyk "))).
Proof.
  exact (proj1 (accepted_token_length (lit " QKFFIyk ") example_data eq_refl)).
Defined.

(** ** Decoded scenarios and the encoder *)

Lemma parse_complete (code : jsstring) (d : ScenarioData.t) :
  parseScenarioCode code = Some d ->
  (exists u, ScenarioData.timeUnit d = Some u)
  /\ 2 <= length (ScenarioData.steps d) <= 5
  /\ forallb step_complete (ScenarioData.steps d) = true
  /\ exists b, ScenarioData.globalBatchSize d = Int b /\ (0 <= b <= 63)%Z.
Proof.
  intros Hp.
  destruct (parse_some_inv code d Hp) as (bits & r' & _ & Hall & _ & Hread).
  destruct (read_scenario_inv bits d r' Hall Hread) as (Hc & _ & _).
  unfold complete, MIN_STEPS, MAX_STEPS in Hc. rewrite !andb_true_iff in Hc.
  destruct Hc as [[[[Hu Hmin] Hmax] Hsteps] Hb].
  apply Z.leb_le in Hmin, Hmax.
  split; [|split; [lia|split; [exact Hsteps|apply in_field_inv, Hb]]].
  destruct (ScenarioData.timeUnit d) as [u|]; [eauto|discriminate].
Qed.

(** X10.  A decoded scenario is a fixed point of the codec, up to the
    batch size 0: when a string decodes to [d], encoding the steps of [d]
    with the global batch fields of [d] put on them and decoding gives
    [d] again if the global batch size of [d] is not 0, and [d] with the
    global batch size 10 if it is 0. *)
Theorem decoded_reencode (code : jsstring) (d : ScenarioData.t) :
  parseScenarioCode code = Some d ->
  exists u,
    ScenarioData.timeUnit d = Some u
    /\ (ScenarioData.globalBatchSize d <> Int 0 ->
        decode_encode (steps_with_global_batch d) u = Some d)
    /\ (ScenarioData.globalBatchSize d = Int 0 ->
        decode_encode (steps_with_global_batch d) u
        = Some (ScenarioData.mk (Some u) (ScenarioData.steps d) (Int 10)
                  (ScenarioData.globalBatchLocked d))).
Proof.
  intros Hp.
  destruct (parse_complete code d Hp) as ((u & Hu) & Hlen & Hsteps & b & Hb & Hbr).
  exists u. split; [exact Hu|].
  assert (Hre : decode_encode (steps_with_global_batch d) u
                = Some (ScenarioData.mk (Some u) (ScenarioData.steps d)
                          (Math_min (or_default (Some (Int b)) (Int 10)) (Int 63))
                          (ScenarioData.globalBatchLocked d))).
  { change (steps_with_global_batch d)
      with (map (attach_batch (Some (ScenarioData.globalBatchSize d))
                   (Some (ScenarioData.globalBatchLocked d)))
              (ScenarioData.steps d)).
    rewrite Hb.
    rewrite decode_encode_attach; [|exact Hsteps|exact Hlen|lia].
    destruct (ScenarioData.globalBatchLocked d); reflexivity. }
  rewrite Hre. cbn [or_default]. split.
  - intros Hne. destruct (Z.eqb_spec b 0) as [->|Hnz]; [congruence|].
    cbn [Math_min]. replace (Z.min b 63) with b by lia.
    clear Hre Hp Hsteps Hlen. destruct d as [tu st gb gl].
    cbn [ScenarioData.timeUnit ScenarioData.steps ScenarioData.globalBatchSize
         ScenarioData.globalBatchLocked] in *.
    subst tu gb. reflexivity.
  - intros Hz. rewrite Hb in Hz. inversion Hz; subst b. reflexivity.
Qed.

Lemma decoded_reencode_witness :
  parseScenarioCode zero_batch_token = Some zero_batch_data
  /\ decode_encode (steps_with_global_batch zero_batch_data) Seconds
     = Some (ScenarioData.mk (Some Seconds)
               (ScenarioData.steps zero_batch_data) (Int 10)
               (ScenarioData.globalBatchLocked zero_batch_data)).
Proof.
  assert (Hp : parseScenarioCode zero_batch_token = Some zero_batch_data)
    by (vm_compute; reflexivity).
  split; [exact Hp|].
  destruct (decoded_reencode zero_batch_token zero_batch_data Hp)
    as (u & Hu & _ & Hz).
  change (Some Seconds = Some u) in Hu. inversion Hu; subst u.
  apply Hz. reflexivity.
Defined.

(** X11.  The encoder never stores the batch size 0: for every list of at
    least [MIN_STEPS] steps with non-negative integer fields the decoded
    global batch size is an integer between 1 and 63, and it is 10 when
    the first step has no batch size or has the batch size [NaN] or 0. *)
Theorem encoded_batch_range (steps : list StepParameters.t)
  (timeUnit : TimeUnit) :
  steps_ok steps = true -> 2 <= length steps ->
  exists d b,
    parseScenarioCode (generateScenarioCode steps timeUnit) = Some d
    /\ ScenarioData.globalBatchSize d = Int b
    /\ (1 <= b <= 63)%Z
    /\ (forall s rest,
          steps = s :: rest ->
          StepParameters.batchSize s = None
          \/ StepParameters.batchSize s = Some NaN
          \/ StepParameters.batchSize s = Some (Int 0) ->
          b = 10%Z).
Proof.
  intros Hok Hlen.
  destruct (global_batch_nonneg steps Hok) as (b & Hb & Hbr).
  exists (decoded steps timeUnit), b.
  split; [apply parse_generate; assumption|].
  unfold decoded. cbn [ScenarioData.globalBatchSize].
  split; [exact Hb|]. split; [exact Hbr|].
  intros s rest -> Hcase. unfold global_batch in Hb.
  destruct Hcase as [H|[H|H]]; rewrite H in Hb; cbn in Hb; congruence.
Qed.

Lemma encoded_batch_range_witness :
  exists d,
    parseScenarioCode (generateScenarioCode zero_batch_steps Seconds) = Some d
    /\ ScenarioData.globalBatchSize d = Int 10.
Proof.
  destruct (encoded_batch_range zero_batch_steps Seconds eq_refl (le_n 2))
    as (d & b & Hd & Hb & _ & Hdef).
  exists d. split; [exact Hd|]. rewrite Hb. f_equal.
  apply (Hdef _ _ eq_refl). right. right. reflexivity.
Defined.



Lemma fold_write_step_stored (l l' : list StepParameters.t)
  (w : BitWriter.t) :
  map stored_step l = map stored_step l' ->
  fold_left write_step l w = fold_left write_step l' w.
Proof.
  revert l' w. induction l as [|s l IH]; intros [|s' l'] w H;
    try discriminate H; [reflexivity|].
  cbn [map] in H. inversion H as [[Hc Ht Hsl Hcl Hrest]].
  cbn [fold_left].
  assert (Hw : write_step w s = write_step w s').
  { unfold write_step. rewrite Hc, Ht, Hsl, Hcl. reflexivity. }
  rewrite Hw. apply IH, Hrest.
Qed.

(** X13.  Only the first step's batch fields reach the token: two lists
    with the same first step whose other steps agree on cycle time,
    setup time and the two locks have the same token, whatever the batch
    sizes and batch locks of the other steps. *)
Theorem generateScenarioCode_other_batches (s : StepParameters.t)
  (rest rest' : list StepParameters.t) (timeUnit : TimeUnit) :
  map stored_step rest = map stored_step rest' ->
  generateScenarioCode (s :: rest) timeUnit
  = generateScenarioCode (s :: rest') timeUnit.
Proof.
  intros H. unfold generateScenarioCode.
  assert (Hlen : length (s :: rest) = length (s :: rest')).
  { cbn [length]. f_equal.
    rewrite <- (length_map stored_step rest), H. apply length_map. }
  rewrite Hlen. cbn [fold_left].
  f_equal. f_equal. apply fold_write_step_stored, H.
Qed.

Lemma generateScenarioCode_other_batches_witness :
  generateScenarioCode
    [ StepParameters.mk (Some (Int 10)) (Some false) (Int 5) (Int 10) false true;
      StepParameters.mk (Some (Int 44)) (Some true) (Int 3) (Int 20) true false ]
    Seconds
  = generateScenarioCode example_steps Seconds.
Proof.
  apply generateScenarioCode_other_batches. reflexivity.
Defined.

Lemma symbols_in_alphabet (gs : list jsstring) :
  Forall is_group gs -> forallb in_alphabet (map symbol_of gs) = true.
Proof.
  induction 1 as [|g gs Hg _ IH]; [reflexivity|].
  cbn [map forallb]. rewrite IH, andb_true_r.
  destruct (group_symbol g Hg) as (_ & Hidx & _).
  destruct (group_value g Hg) as (_ & Hr & _).
  unfold in_alphabet. rewrite Hidx.
  apply negb_true_iff, Z.eqb_neq. lia.
Qed.

(** X14.  The token is safe to share as text: for every list of steps
    with non-negative integer fields, of any length, the token consists
    of ceiling((13 + 14 * steps) / 6) characters of the alphabet, has no
    white space, and is left as it is by the cleanup of the decoder. *)
Theorem generateScenarioCode_alphabet (steps : list StepParameters.t)
  (timeUnit : TimeUnit) :
  steps_ok steps = true ->
  let token := generateScenarioCode steps timeUnit in
  forallb in_alphabet token = true
  /\ length token = minimum_length (length steps)
  /\ 3 <= length token
  /\ remove_spaces (trim token) = token.
Proof.
  intros Hok token.
  destruct (token_shape steps timeUnit Hok) as (_ & Hgs & Htok & Hn).
  fold token in Htok, Hn.
  split; [rewrite Htok; apply symbols_in_alphabet, Hgs|].
  split; [exact Hn|]. split.
  - rewrite Hn. unfold minimum_length.
    apply Nat.div_le_lower_bound; lia.
  - apply clean_no_spaces. rewrite Htok. apply symbols_no_spaces, Hgs.
Qed.

Lemma generateScenarioCode_alphabet_witness :
  length (generateScenarioCode six_steps Hours) = 17.
Proof.
  exact (proj1 (proj2 (generateScenarioCode_alphabet six_steps Hours eq_refl))).
Defined.

(** ** The header in the first character *)

(** The version and the time unit that a successful decode has read. *)
Lemma read_scenario_header (bits : jsstring) (d : ScenarioData.t)
  (r' : BitReader.t) :
  all_bits bits = true ->
  read_scenario (BitReader.new bits) = Value (Some d, r') ->
  bits_value (firstn 2 bits) = 1%Z
  /\ ScenarioData.timeUnit d
     = timeUnits_at (Int (bits_value (firstn 2 (skipn 2 bits)))).
Proof.
  intros Hb H. unfold read_scenario in H.
  set (r := BitReader.new bits) in *.
  assert (Hbr : all_bits (BitReader.bits r) = true) by exact Hb.
  unfold bind at 1 in H.
  destruct (BitReader.read 2 r) as [[version r1]|] eqn:E1; [|discriminate H].
  destruct (read_inv _ _ _ _ E1) as (Hle1 & Hv & ->).
  change (remaining r) with bits in Hv.
  cbn [r BitReader.new BitReader.bits BitReader.pointer] in Hle1.
  rewrite parseInt2_bits in Hv;
    [|apply all_bits_firstn, Hb
     |intros He; apply (f_equal (@length ascii)) in He;
      rewrite length_firstn in He; cbn [length] in He; lia].
  subst version. cbn [number_eqb] in H.
  destruct (Z.eqb_spec (bits_value (firstn 2 bits)) 1) as [Hone|];
    [|discriminate H].
  cbn [negb] in H. split; [exact Hone|].
  unfold bind at 1 in H.
  destruct (BitReader.read 2 (advance 2 r)) as [[unitVal r2]|] eqn:E2;
    [|discriminate H].
  destruct (read_inv _ _ _ _ E2) as (Hle2 & Hu & ->).
  rewrite remaining_advance in Hu. change (remaining r) with bits in Hu.
  cbn [advance r BitReader.new BitReader.bits BitReader.pointer] in Hle2.
  rewrite parseInt2_bits in Hu;
    [|apply all_bits_firstn, all_bits_skipn, Hb
     |intros He; apply (f_equal (@length ascii)) in He;
      rewrite length_firstn, length_skipn in He; cbn [length] in He; lia].
  subst unitVal.
  destruct (number_gtb (Int (bits_value (firstn 2 (skipn 2 bits)))) (Int 2));
    [discriminate H|].
  read_unknown H Hbr. read_unknown H Hbr. read_unknown H Hbr.
  unfold bind at 1 in H.
  match type of H with
  | context [read_steps ?n ?a ?rr] =>
      destruct (read_steps n a rr) as [[stepsData r6]|]; [|discriminate H]
  end.
  unfold ret in H. inversion H. reflexivity.
Qed.

Lemma timeUnits_at_inv (v : Z) (u : TimeUnit) :
  timeUnits_at (Int v) = Some u -> unitMap u = v.
Proof.
  unfold timeUnits_at. destruct (Z.ltb_spec v 0); [discriminate|].
  destruct (Z.to_nat v) as [|[|[|n]]] eqn:Hn; cbn [nth_error]; intros Hu.
  - injection Hu as <-. cbn. lia.
  - injection Hu as <-. cbn. lia.
  - injection Hu as <-. cbn. lia.
  - destruct n; discriminate Hu.
Qed.

Lemma accepted_first_symbol (code : jsstring) (d : ScenarioData.t) :
  parseScenarioCode code = Some d ->
  exists c rest u,
    remove_spaces (trim code) = c :: rest
    /\ ScenarioData.timeUnit d = Some u
    /\ CHARS_indexOf c
       = (16 + 4 * unitMap u
          + (Z.of_nat (length (ScenarioData.steps d)) - MIN_STEPS))%Z
    /\ (16 <= CHARS_indexOf c <= 27)%Z.
Proof.
  intros Hp.
  destruct (parse_some_inv code d Hp) as (bits & r' & Hbits & Hall & Hlen & Hread).
  destruct (read_scenario_inv bits d r' Hall Hread) as (_ & Hcount & Hle).
  destruct (read_scenario_header bits d r' Hall Hread) as (Hversion & Hunit).
  destruct (parse_complete code d Hp) as ((u & Hu) & Hsteps & _ & _).
  destruct (remove_spaces (trim code)) as [|c rest] eqn:Hclean;
    [cbn in Hlen; lia|].
  exists c, rest, u. split; [reflexivity|]. split; [exact Hu|].
  assert (Halpha : forallb in_alphabet (c :: rest) = true).
  { destruct (forallb in_alphabet (c :: rest)) eqn:Ha; [reflexivity|].
    destruct (not_alphabet_inv _ Ha) as (x & Hin & Hx).
    unfold base64ToBinaryString in Hbits.
    rewrite (decode_chars_invalid _ [] x Hin Hx) in Hbits. discriminate Hbits. }
  unfold base64ToBinaryString in Hbits.
  rewrite (decode_chars_alphabet _ [] Halpha) in Hbits.
  assert (Hb : [] ++ concat (map symbol_bits (c :: rest)) = bits)
    by congruence.
  clear Hbits.
  cbn [forallb] in Halpha. apply andb_true_iff in Halpha.
  destruct Halpha as [Hc _]. destruct (in_alphabet_inv c Hc) as [_ Hr].
  change ([] ++ concat (map symbol_bits (c :: rest)))
    with (symbol_bits c ++ concat (map symbol_bits rest)) in Hb.
  assert (Hval : bits_value (symbol_bits c) = CHARS_indexOf c).
  { unfold symbol_bits. rewrite low_bits_value.
    change (2 ^ Z.of_nat 6)%Z with 64%Z. apply Z.mod_small, Hr. }
  destruct (symbol_bits_group c) as [Hgb Hgl].
  remember (symbol_bits c) as g eqn:Hg. clear Hg.
  destruct g as [|a1 [|a2 [|a3 [|a4 [|a5 [|a6 [|]]]]]]];
    try discriminate Hgl.
  subst bits.
  rewrite Hu in Hunit. symmetry in Hunit.
  apply timeUnits_at_inv in Hunit.
  cbn [app firstn skipn] in Hversion, Hunit.
  unfold announced_steps in Hcount. cbn [app firstn skipn] in Hcount.
  assert (H56 : all_bits [a5; a6] = true).
  { cbn in Hgb |- *. rewrite !andb_true_iff in Hgb. rewrite !andb_true_iff.
    tauto. }
  assert (Hp56 : parseInt2 [a5; a6] = Int (bits_value [a5; a6]))
    by (apply parseInt2_bits; [exact H56|discriminate]).
  rewrite Hp56 in Hcount.
  cbn [number_add loop_count] in Hcount.
  pose proof (bits_value_range [a5; a6]) as Hr56.
  change (2 ^ Z.of_nat (length [a5; a6]))%Z with 4%Z in Hr56.
  assert (Hsplit : bits_value [a1; a2; a3; a4; a5; a6]
                   = (16 * bits_value [a1; a2] + 4 * bits_value [a3; a4]
                      + bits_value [a5; a6])%Z).
  { unfold bits_value. cbn [fold_left]. lia. }
  rewrite Hsplit, Hversion in Hval.
  unfold MIN_STEPS in *.
  pose proof (bits_value_range [a3; a4]) as Hr34.
  assert (Hu3 : (0 <= unitMap u <= 2)%Z) by (destruct u; cbn; lia).
  split; lia.
Qed.

(** X15.  The first character of an accepted token carries the whole
    header prefix: its index in the alphabet is 16 (version 1) plus 4
    times the time unit plus the step count less [MIN_STEPS], so it is
    one of the twelve characters from 'Q' to 'b'. *)
Theorem first_symbol_header (code : jsstring) (d : ScenarioData.t) :
  parseScenarioCode code = Some d ->
  exists c rest u,
    remove_spaces (trim code) = c :: rest
    /\ ScenarioData.timeUnit d = Some u
    /\ CHARS_indexOf c
       = (16 + 4 * unitMap u
          + (Z.of_nat (length (ScenarioData.steps d)) - MIN_STEPS))%Z
    /\ (16 <= CHARS_indexOf c <= 27)%Z.
Proof. apply accepted_first_symbol. Qed.

Lemma first_symbol_header_witness :
  exists c rest,
    remove_spaces (trim (lit " QKFFIyk")) = c :: rest
    /\ CHARS_indexOf c = 16%Z.
Proof.
  destruct (first_symbol_header (lit " QKFFIyk") example_data)
    as (c & rest & u & Hc & Hu & Hidx & _); [vm_compute; reflexivity|].
  exists c, rest. split; [exact Hc|].
  change (Some Seconds = Some u) in Hu. inversion Hu; subst u.
  exact Hidx.
Defined.

(** ** StepControl: input handling *)

Lemma handleInputChange_bounds_aux (valStr : jsstring) (min max : Z) :
  (min <= max)%Z ->
  exists z, handleInputChange valStr min max = Int z /\ (min <= z <= max)%Z.
Proof.
  intros Hmm. unfold handleInputChange.
  destruct valStr as [|c s]; [exists min; split; [reflexivity|lia]|].
  destruct (parseInt10 (c :: s)) as [|v]; cbn [number_gtb].
  - destruct (Z.ltb_spec max min); cbn [number_ltb]; [lia|].
    rewrite Z.ltb_irrefl. exists min. split; [reflexivity|lia].
  - destruct (Z.ltb_spec max v); cbn [number_ltb].
    + destruct (Z.ltb_spec max min); [lia|].
      exists max. split; [reflexivity|lia].
    + destruct (Z.ltb_spec v min).
      * exists min. split; [reflexivity|lia].
      * exists v. split; [reflexivity|lia].
Qed.

(** X16.  [handleInputChange] always hands an integer to
    [onParameterChange] that is at least [min], and at most [max] when
    [min <= max]: an empty or non-numeric text gives [min], an integer
    within the bounds gives itself, one above [max] gives [max] and one
    below [min] gives [min]. *)
Theorem handleInputChange_bounds (valStr : jsstring) (min max : Z) :
  exists z,
    handleInputChange valStr min max = Int z
    /\ (min <= z)%Z
    /\ ((min <= max)%Z -> (z <= max)%Z)
    /\ (valStr = [] \/ parseInt10 valStr = NaN -> z = min)
    /\ (forall v,
          valStr <> [] -> parseInt10 valStr = Int v ->
          (min <= max)%Z ->
          z = Z.max min (Z.min v max)).
Proof.
  unfold handleInputChange.
  destruct valStr as [|c s].
  - exists min. repeat split; try lia. intros v Hne. congruence.
  - destruct (parseInt10 (c :: s)) as [|v] eqn:Hparse.
    + cbn [number_gtb number_ltb].
      destruct (Z.ltb_spec max min), (Z.ltb_spec min max); cbn [number_ltb];
        rewrite ?Z.ltb_irrefl;
        try (destruct (Z.ltb_spec max min); try lia);
        eexists; (split; [reflexivity|]);
        repeat split; try lia; intros; discriminate.
    + cbn [number_gtb].
      destruct (Z.ltb_spec max v); cbn [number_ltb].
      * destruct (Z.ltb_spec max min);
          eexists; (split; [reflexivity|]);
          (split; [lia|]); (split; [lia|]);
          (split; [intros [H'|H']; discriminate H'|]);
          intros v' _ Hv' Hmm; inversion Hv'; lia.
      * destruct (Z.ltb_spec v min);
          eexists; (split; [reflexivity|]);
          (split; [lia|]); (split; [lia|]);
          (split; [intros [H'|H']; discriminate H'|]);
          intros v' _ Hv' Hmm; inversion Hv'; lia.
Qed.

Lemma handleInputChange_bounds_witness :
  handleInputChange (lit "75") 1 50 = Int 50
  /\ handleInputChange (lit "abc") 1 50 = Int 1.
Proof.
  split.
  - destruct (handleInputChange_bounds (lit "75") 1 50)
      as (z & -> & _ & _ & _ & Hv).
    rewrite (Hv 75%Z); [reflexivity|discriminate|reflexivity|lia].
  - destruct (handleInputChange_bounds (lit "abc") 1 50)
      as (z & -> & _ & _ & Hmin & _).
    rewrite Hmin; [reflexivity|right; reflexivity].
Defined.

(** X17.  What the batch-size and setup-time inputs produce is stored by
    the encoder as it is: for every text, the batch size from
    [handleInputChange] with the bounds 1 and 50 is neither replaced by
    the default 10 nor clamped to 63, and the setup time with the bounds
    0 and 120 is not clamped to 127. *)
Theorem input_values_fit_fields (batchText setupText : jsstring) :
  let batchSize := handleInputChange batchText 1 50 in
  let setupTime := handleInputChange setupText 0 120 in
  Math_min (or_default (Some batchSize) (Int 10)) (Int 63) = batchSize
  /\ Math_min setupTime (Int 127) = setupTime
  /\ in_field batchSize 63 = true
  /\ batchSize <> Int 0
  /\ in_field setupTime 127 = true.
Proof.
  intros batchSize setupTime.
  destruct (handleInputChange_bounds_aux batchText 1 50 ltac:(lia))
    as (b & Hb & Hbr).
  destruct (handleInputChange_bounds_aux setupText 0 120 ltac:(lia))
    as (t & Ht & Htr).
  unfold batchSize, setupTime. rewrite Hb, Ht. cbn [or_default].
  destruct (Z.eqb_spec b 0); [lia|]. cbn [Math_min].
  split; [f_equal; lia|]. split; [f_equal; lia|].
  split; [apply in_field_intro; lia|].
  split; [intros H; inversion H; lia|apply in_field_intro; lia].
Qed.

Lemma input_values_fit_fields_witness :
  Math_min (or_default (Some (handleInputChange (lit "0") 1 50)) (Int 10))
    (Int 63)
  = Int 1.
Proof.
  exact (proj1 (input_values_fit_fields (lit "0") (lit "500"))).
Defined.

(** ** SettingsModal: validating and loading a code *)

Lemma validateInput_eq (inputCode : jsstring) :
  validateInput inputCode
  = (match parseScenarioCode inputCode with
     | Some _ => true
     | None => false
     end, parseScenarioCode inputCode).
Proof.
  unfold validateInput.
  assert (Hsame : parseScenarioCode (trim inputCode)
                  = parseScenarioCode inputCode).
  { apply parse_same_clean, remove_spaces_trim. }
  destruct (Nat.ltb_spec 0 (length (trim inputCode))) as [Hpos|Hzero].
  - cbv zeta. rewrite Hsame. reflexivity.
  - assert (Hempty : trim inputCode = []).
    { destruct (trim inputCode); [reflexivity|cbn in Hzero; lia]. }
    rewrite (parse_none_of_empty inputCode); [reflexivity|].
    rewrite Hempty. reflexivity.
Qed.

Lemma parse_complete_bool (code : jsstring) (d : ScenarioData.t) :
  parseScenarioCode code = Some d -> complete d = true.
Proof.
  intros Hp.
  destruct (parse_some_inv code d Hp) as (bits & r' & _ & Hall & _ & Hread).
  apply (read_scenario_inv bits d r' Hall Hread).
Qed.

(** X18.  The validation effect of the modal sets [isValidCode] exactly
    when [parseScenarioCode] accepts the input as typed, and
    [parsedScenario] to its result: the guard on the trimmed length and
    the extra [trim] change nothing.  A valid input comes with a complete
    scenario, and an input of white space only is invalid. *)
Theorem validateInput_parse (inputCode : jsstring) :
  validateInput inputCode
  = (match parseScenarioCode inputCode with
     | Some _ => true
     | None => false
     end, parseScenarioCode inputCode)
  /\ (fst (validateInput inputCode) = true ->
      exists d, snd (validateInput inputCode) = Some d /\ complete d = true)
  /\ (forallb is_space inputCode = true ->
      validateInput inputCode = (false, None)).
Proof.
  split; [apply validateInput_eq|]. rewrite validateInput_eq.
  cbn [fst snd]. split.
  - destruct (parseScenarioCode inputCode) as [d|] eqn:Hp; [|discriminate].
    intros _. exists d. split; [reflexivity|].
    apply (parse_complete_bool inputCode d Hp).
  - intros Hws. rewrite (parse_none_of_empty inputCode); [reflexivity|].
    rewrite remove_spaces_trim. apply remove_spaces_spaces, Hws.
Qed.

Lemma validateInput_parse_witness :
  validateInput (lit "  QKFFIyk ") = (true, Some example_data)
  /\ validateInput (lit "   ") = (false, None).
Proof.
  split.
  - rewrite (proj1 (validateInput_parse (lit "  QKFFIyk "))).
    vm_compute. reflexivity.
  - apply (proj2 (proj2 (validateInput_parse (lit "   ")))). reflexivity.
Defined.

Lemma token_decodes_to_padded (steps : list StepParameters.t)
  (timeUnit : TimeUnit) :
  steps_ok steps = true ->
  base64ToBinaryString
    (remove_spaces (trim (generateScenarioCode steps timeUnit)))
  = Value (scenario_bits steps timeUnit
           ++ zero_padding (scenario_bits steps timeUnit)).
Proof.
  intros Hok.
  destruct (token_shape steps timeUnit Hok) as (_ & Hgs & Htok & _).
  rewrite clean_no_spaces by (rewrite Htok; apply symbols_no_spaces, Hgs).
  rewrite (generateScenarioCode_bits steps timeUnit Hok).
  apply base64_roundtrip, scenario_bits_all_bits.
Qed.

Lemma parse_generate_few (steps : list StepParameters.t)
  (timeUnit : TimeUnit) :
  steps_ok steps = true -> length steps < 2 ->
  parseScenarioCode (generateScenarioCode steps timeUnit) = None.
Proof.
  intros Hok Hlen.
  set (bits := scenario_bits steps timeUnit).
  apply parse_none_of_short with (bits := bits ++ zero_padding bits).
  - apply token_decodes_to_padded, Hok.
  - destruct (zero_padding_length bits) as [Hz _].
    pose proof (scenario_bits_length steps timeUnit) as Hl. fold bits in Hl.
    pose proof (announced_steps_header steps timeUnit
                  (length (bits ++ zero_padding bits)) (zero_padding bits))
      as Hann.
    fold bits in Hann. rewrite firstn_all in Hann.
    rewrite Hann by (rewrite length_app; lia).
    rewrite length_app, Hl.
    unfold clamped_count, MIN_STEPS, MAX_STEPS.
    replace (Z.to_nat (Z.min (Z.max (Z.of_nat (length steps)) 2) 5))
      with 2 by lia.
    lia.
Qed.

(** X19.  The modal accepts the code it shows only from [MIN_STEPS]
    steps on: for steps with non-negative integer fields, the code
    generated while the modal is open validates, with the clamped values
    of the first [MAX_STEPS] steps, when there are at least 2 steps, and
    is reported invalid when there are fewer. *)
Theorem generated_code_validation (steps : list StepParameters.t)
  (timeUnit : TimeUnit) :
  steps_ok steps = true ->
  exists code,
    generateEffect true (Some steps) timeUnit = Some code
    /\ (2 <= length steps ->
        validateInput code = (true, Some (decoded steps timeUnit)))
    /\ (length steps < 2 -> validateInput code = (false, None)).
Proof.
  intros Hok. eexists. split; [reflexivity|].
  rewrite validateInput_eq. split; intros Hlen.
  - rewrite parse_generate by assumption. reflexivity.
  - rewrite parse_generate_few by assumption. reflexivity.
Qed.

Lemma generated_code_validation_witness :
  validateInput (generateScenarioCode one_step Minutes) = (false, None)
  /\ validateInput (generateScenarioCode example_steps Seconds)
     = (true, Some (decoded example_steps Seconds)).
Proof.
  split.
  - destruct (generated_code_validation one_step Minutes eq_refl)
      as (code & Hcode & _ & Hfew).
    injection Hcode as <-. apply Hfew. cbn. lia.
  - destruct (generated_code_validation example_steps Seconds eq_refl)
      as (code & Hcode & Hok & _).
    injection Hcode as <-. apply Hok. cbn. lia.
Defined.

(** X20.  [loadScenario] hands over only what the validation accepted:
    with the state that the validation effect set for the input, it does
    nothing when the code is invalid or [onLoadScenario] is missing;
    otherwise it calls [onLoadScenario] with the complete scenario that
    [parseScenarioCode] returns for the input, then [onClose], then
    clears the input, for which the validation reports invalid. *)
Theorem loadScenario_guard (inputCode : jsstring) (hasOnLoadScenario : bool) :
  let isValidCode := fst (validateInput inputCode) in
  let parsedScenario := snd (validateInput inputCode) in
  (isValidCode = false \/ hasOnLoadScenario = false ->
   loadScenario parsedScenario hasOnLoadScenario = [])
  /\ (forall d,
        In (OnLoadScenario d) (loadScenario parsedScenario hasOnLoadScenario) ->
        parseScenarioCode inputCode = Some d /\ complete d = true)
  /\ (isValidCode = true -> hasOnLoadScenario = true ->
      exists d,
        parseScenarioCode inputCode = Some d
        /\ loadScenario parsedScenario hasOnLoadScenario
           = [OnLoadScenario d; OnClose; SetInputCode []]
        /\ validateInput [] = (false, None)).
Proof.
  intros isValidCode parsedScenario.
  unfold isValidCode, parsedScenario. rewrite validateInput_eq.
  cbn [fst snd]. unfold loadScenario.
  destruct (parseScenarioCode inputCode) as [d|] eqn:Hp.
  - split; [|split].
    + intros [H|H]; [discriminate H|]. rewrite H. reflexivity.
    + intros d' Hin. destruct hasOnLoadScenario; [|destruct Hin].
      destruct Hin as [Heq|[Heq|[Heq|[]]]]; try discriminate Heq.
      injection Heq as <-. split; [reflexivity|].
      apply (parse_complete_bool inputCode d Hp).
    + intros _ ->. exists d. repeat split.
  - split; [|split].
    + reflexivity.
    + intros d' [].
    + intros H. discriminate H.
Qed.

Lemma loadScenario_guard_witness :
  loadScenario (snd (validateInput (lit "QKFFIy"))) true = []
  /\ exists d,
       loadScenario (snd (validateInput (lit "QKFFIyk"))) true
       = [OnLoadScenario d; OnClose; SetInputCode []].
Proof.
  split.
  - apply (proj1 (loadScenario_guard (lit "QKFFIy") true)).
    left. vm_compute. reflexivity.
  - destruct (proj2 (proj2 (loadScenario_guard (lit "QKFFIyk") true)))
      as (d & _ & Hload & _); [vm_compute; reflexivity|reflexivity|].
    exists d. exact Hload.
Defined.

(** ** What the decoder accepts *)

(** A read of [width] bits that are there, under the outermost [bind]
    of the goal. *)
Ltac read_present :=
  unfold bind at 1;
  rewrite read_enough
    by (try lia; rewrite remaining_length;
        cbn [advance BitReader.new BitReader.bits BitReader.pointer]; lia);
  cbv beta iota.

Lemma read_steps_enough (n : nat) (acc : list ScenarioStep.t)
  (r : BitReader.t) :
  BitReader.pointer r + 14 * n <= length (BitReader.bits r) ->
  exists l r', read_steps n acc r = Value (l, r').
Proof.
  revert acc r. induction n as [|n IH]; intros acc r Hn.
  - cbn. unfold ret. eauto.
  - cbn [read_steps].
    read_present. read_present. read_present. read_present.
    apply IH. cbn [advance BitReader.bits BitReader.pointer]. lia.
Qed.

Lemma parseInt2_field (w : nat) (s : jsstring) :
  all_bits s = true -> 0 < w -> w <= length s ->
  parseInt2 (firstn w s) = Int (bits_value (firstn w s)).
Proof.
  intros Hs Hw Hl. apply parseInt2_bits; [apply all_bits_firstn, Hs|].
  intros He. apply (f_equal (@length ascii)) in He.
  rewrite length_firstn in He. cbn [length] in He. lia.
Qed.

(** A stream of bits with a version-1 header, a time unit of at most 2
    and the bits of the announced steps is decoded. *)
Lemma read_scenario_accepts (bits : jsstring) :
  all_bits bits = true ->
  bits_value (firstn 2 bits) = 1%Z ->
  (bits_value (firstn 2 (skipn 2 bits)) <= 2)%Z ->
  13 + 14 * announced_steps bits <= length bits ->
  exists d r', read_scenario (BitReader.new bits) = Value (Some d, r').
Proof.
  intros Hb Hv Hu Hlen. unfold read_scenario.
  set (r := BitReader.new bits).
  assert (Hr : remaining r = bits) by reflexivity.
  assert (Hp : BitReader.pointer r = 0) by reflexivity.
  assert (Hbits : BitReader.bits r = bits) by reflexivity.
  unfold bind at 1.
  rewrite read_enough by (try lia; rewrite Hr; lia). cbv beta iota.
  rewrite Hr, parseInt2_field by (try exact Hb; lia).
  rewrite Hv. change (negb (number_eqb (Int 1) (Int 1))) with false.
  cbv iota.
  unfold bind at 1.
  rewrite read_enough by (try lia; rewrite remaining_advance, Hr, length_skipn; lia).
  cbv beta iota.
  rewrite remaining_advance, Hr.
  rewrite parseInt2_field
    by (try (apply all_bits_skipn; exact Hb); try rewrite length_skipn; lia).
  cbn [number_gtb].
  destruct (Z.ltb_spec 2 (bits_value (firstn 2 (skipn 2 bits)))); [lia|].
  unfold bind at 1.
  rewrite read_enough
    by (try lia; rewrite !remaining_advance, Hr, !length_skipn; lia).
  cbv beta iota.
  rewrite !remaining_advance, Hr, skipn_skipn.
  change (2 + 2) with 4. fold (announced_steps bits).
  unfold bind at 1.
  rewrite read_enough
    by (try lia; rewrite remaining_length;
        cbn [advance BitReader.bits BitReader.pointer]; rewrite Hp, Hbits; lia).
  cbv beta iota.
  unfold bind at 1.
  rewrite read_enough
    by (try lia; rewrite remaining_length;
        cbn [advance BitReader.bits BitReader.pointer]; rewrite Hp, Hbits; lia).
  cbv beta iota.
  unfold bind at 1.
  match goal with
  | |- context [read_steps ?n ?a ?rr] =>
      destruct (read_steps_enough n a rr) as (l & r' & ->)
  end.
  - cbn [advance BitReader.bits BitReader.pointer]. rewrite Hp, Hbits. lia.
  - unfold ret. eauto.
Qed.

Lemma first_group_fields (g tail : jsstring) :
  is_group g ->
  let bits := g ++ tail in
  bits_value g
  = (16 * bits_value (firstn 2 bits)
     + 4 * bits_value (firstn 2 (skipn 2 bits))
     + bits_value (firstn 2 (skipn 4 bits)))%Z
  /\ (0 <= bits_value (firstn 2 bits) <= 3)%Z
  /\ (0 <= bits_value (firstn 2 (skipn 2 bits)) <= 3)%Z
  /\ (0 <= bits_value (firstn 2 (skipn 4 bits)) <= 3)%Z
  /\ parseInt2 (firstn 2 (skipn 4 bits))
     = Int (bits_value (firstn 2 (skipn 4 bits))).
Proof.
  intros [Hgb Hgl] bits. unfold bits.
  destruct g as [|a1 [|a2 [|a3 [|a4 [|a5 [|a6 [|]]]]]]]; try discriminate Hgl.
  cbn [app firstn skipn].
  pose proof (bits_value_range [a1; a2]) as H12.
  pose proof (bits_value_range [a3; a4]) as H34.
  pose proof (bits_value_range [a5; a6]) as H56.
  change (2 ^ Z.of_nat (length [a1; a2]))%Z with 4%Z in H12.
  change (2 ^ Z.of_nat (length [a3; a4]))%Z with 4%Z in H34.
  change (2 ^ Z.of_nat (length [a5; a6]))%Z with 4%Z in H56.
  split; [unfold bits_value; cbn [fold_left]; lia|].
  split; [lia|]. split; [lia|]. split; [lia|].
  apply parseInt2_bits; [|discriminate].
  cbn in Hgb |- *. rewrite !andb_true_iff in Hgb. rewrite !andb_true_iff.
  tauto.
Qed.

(** X21.  The decoder accepts a string exactly when its cleaned text is
    not empty, consists of characters of the alphabet, starts with one of
    the twelve header characters (index 16 to 27: version 1 and a time
    unit of at most 2), and has at least the minimum length of the step
    count that this first character announces; nothing else is checked. *)
Theorem parse_accepts_iff (code : jsstring) :
  (exists d, parseScenarioCode code = Some d)
  <->
  (exists c rest,
     remove_spaces (trim code) = c :: rest
     /\ forallb in_alphabet (c :: rest) = true
     /\ (16 <= CHARS_indexOf c <= 27)%Z
     /\ minimum_length (Z.to_nat ((CHARS_indexOf c - 16) mod 4) + 2)
        <= length (c :: rest)).
Proof.
  split.
  - intros (d & Hp).
    destruct (accepted_first_symbol code d Hp)
      as (c & rest & u & Hclean & _ & Hidx & Hrange).
    destruct (accepted_length code d Hp) as [Hlen _].
    destruct (parse_complete code d Hp) as (_ & Hsteps & _ & _).
    exists c, rest. split; [exact Hclean|]. split.
    + destruct (parse_some_inv code d Hp) as (bits & _ & Hbits & _).
      rewrite Hclean in Hbits.
      destruct (forallb in_alphabet (c :: rest)) eqn:Ha; [reflexivity|].
      destruct (not_alphabet_inv _ Ha) as (x & Hin & Hx).
      unfold base64ToBinaryString in Hbits.
      rewrite (decode_chars_invalid _ [] x Hin Hx) in Hbits.
      discriminate Hbits.
    + split; [exact Hrange|]. rewrite Hclean in Hlen.
      assert (Hu : (0 <= unitMap u <= 2)%Z) by (destruct u; cbn; lia).
      unfold MIN_STEPS in Hidx.
      replace (Z.to_nat ((CHARS_indexOf c - 16) mod 4) + 2)
        with (length (ScenarioData.steps d)); [exact Hlen|].
      replace (CHARS_indexOf c - 16)%Z
        with (Z.of_nat (length (ScenarioData.steps d)) - 2
              + unitMap u * 4)%Z by lia.
      rewrite Z.mod_add, Z.mod_small by lia. lia.
  - intros (c & rest & Hclean & Halpha & Hrange & Hlen).
    pose proof (decode_chars_alphabet (c :: rest) [] Halpha) as Hdec.
    destruct (concat_symbol_bits (c :: rest)) as [Hall Hl].
    set (bits := concat (map symbol_bits (c :: rest))) in *.
    cbn [app] in Hdec.
    assert (Hbits : base64ToBinaryString (remove_spaces (trim code))
                    = Value bits) by (rewrite Hclean; exact Hdec).
    cbn [forallb] in Halpha. apply andb_true_iff in Halpha.
    destruct Halpha as [Hc _]. destruct (in_alphabet_inv c Hc) as [_ Hr].
    assert (Hval : bits_value (symbol_bits c) = CHARS_indexOf c).
    { unfold symbol_bits. rewrite low_bits_value.
      change (2 ^ Z.of_nat 6)%Z with 64%Z. apply Z.mod_small, Hr. }
    destruct (first_group_fields (symbol_bits c)
                (concat (map symbol_bits rest)) (symbol_bits_group c))
      as (Hsplit & Hv & Hu & Ho & Hparse).
    change (symbol_bits c ++ concat (map symbol_bits rest)) with bits in *.
    rewrite Hval in Hsplit.
    assert (Hann : announced_steps bits
                   = Z.to_nat ((CHARS_indexOf c - 16) mod 4) + 2).
    { unfold announced_steps. rewrite Hparse.
      cbn [number_add loop_count]. unfold MIN_STEPS.
      replace (CHARS_indexOf c - 16)%Z
        with (bits_value (firstn 2 (skipn 4 bits))
              + (4 * bits_value (firstn 2 bits)
                 + bits_value (firstn 2 (skipn 2 bits)) - 4) * 4)%Z by lia.
      rewrite Z.mod_add, Z.mod_small by lia. lia. }
    destruct (read_scenario_accepts bits Hall) as (d & r' & Hread).
    + lia.
    + lia.
    + rewrite Hann, Hl.
      unfold minimum_length in Hlen.
      pose proof (ceiling_six
                    (13 + (Z.to_nat ((CHARS_indexOf c - 16) mod 4) + 2) * 14))
        as Hceil.
      lia.
    + exists d. rewrite (parse_of_bits code bits Hbits), Hclean, Hread.
      reflexivity.
Qed.

Lemma parse_accepts_iff_witness :
  exists d, parseScenarioCode (lit "b______________") = Some d.
Proof.
  apply (proj2 (parse_accepts_iff (lit "b______________"))).
  exists "b"%char, (lit "______________").
  split; [reflexivity|]. split; [reflexivity|].
  split; [vm_compute; split; discriminate|].
  vm_compute. lia.
Defined.
